(** * kraph: an in-memory weighted directed graph guarded by one RWMutex

    Shallow embedding of [kraph.go].  The three Go maps of [graph] become
    stdpp [gmap]s, [float64] weights are Rocq's binary64 primitive floats
    (which have a single NaN), and every method is written in a small state
    monad over the receiver that also records the lock and store events the
    method performs. *)

From Stdlib Require Import Floats.PrimFloat.
From stdpp Require Import gmap strings list fin_maps.

Set Default Proof Using "Type".
#[local] Set Warnings "-clear-no-such-hyp".

(** ** Identities and nodes *)

(** [type ID interface { String() string }]; the only implementation in the
    package is [nid], a string, so an identity is its string. *)
Definition ID : Type := string.
Definition nid : Type := string.
Definition ID_String (id : ID) : string := id.
Definition NewNID (id : string) : ID := id.

(** [type Node interface { GetId() ID }].  A value of this class is a
    non-nil Go [Node]; the nil interface value is [None] in [option N]. *)
Class Node (N : Type) := GetId : N → ID.

(** [type node struct { id ID }]; [NewNode] returns a pointer to one, which
    is modelled by the struct it points to. *)
Record node := mk_node { id : ID }.
#[export] Instance node_Node : Node node := id.
Definition NewNode (i : ID) : node := {| id := i |}.

(** ** Errors

    Both kinds of error are built with [fmt.Errorf]; the constructor keeps
    the arguments and [Error] gives the formatted message. *)
Inductive error :=
  | ErrNotExist (i : ID)
  | ErrNoEdge (p i : ID).

Definition Error (e : error) : string :=
  match e with
  | ErrNotExist i => ID_String i +:+ " does not exist in graph"
  | ErrNoEdge p i =>
      "there is no edge from " +:+ ID_String p +:+ " to " +:+ ID_String i
  end.

#[export] Instance error_eq_dec : EqDecision error.
Proof. solve_decision. Defined.

(** ** The receiver *)

Record RWMutex := mk_mu { writer : bool; readers : nat }.

#[export] Instance RWMutex_eq_dec : EqDecision RWMutex.
Proof. solve_decision. Defined.

Record graph (N : Type) := mk_graph {
  mu : RWMutex;
  nodeList : gmap ID N;
  nodeSources : gmap ID (gmap ID float);
  nodeTargets : gmap ID (gmap ID float)
}.
Arguments mk_graph {N} _ _ _ _.
Arguments mu {N} _.
Arguments nodeList {N} _.
Arguments nodeSources {N} _.
Arguments nodeTargets {N} _.

Inductive field := FnodeList | FnodeSources | FnodeTargets.

Inductive event :=
  | EvLock | EvUnlock | EvRLock | EvRUnlock
  | EvStore (f : field).

(** ** The method monad

    A method body maps the receiver to its result, the receiver afterwards
    and the events it performed; [None] is a goroutine that never returns
    (blocked on the mutex, or the runtime's fatal error on a bad unlock). *)
Definition M (N A : Type) : Type := graph N → option (A * graph N * list event).

Definition ret {N A} (a : A) : M N A := λ g, Some (a, g, []).

Definition bind {N A B} (m : M N A) (f : A → M N B) : M N B :=
  λ g, match m g with
       | None => None
       | Some (a, g1, t1) =>
           match f a g1 with
           | None => None
           | Some (b, g2, t2) => Some (b, g2, t1 ++ t2)
           end
       end.

Notation "x <- m ;; k" := (bind m (λ x, k))
  (at level 100, m at next level, right associativity, only parsing).
Notation "m ;;; k" := (bind m (λ _, k))
  (at level 100, right associativity, only parsing).

(** [defer d] before a body: [d] runs when the body has produced its result. *)
Definition defer {N A} (d : M N unit) (body : M N A) : M N A :=
  r <- body ;; d ;;; ret r.

Definition get {N} : M N (graph N) := λ g, Some (g, g, []).

(** [sync.RWMutex]: [Lock] waits for the writer and all readers to leave,
    [RLock] for the writer; unlocking a mutex that is not locked is a fatal
    error of the runtime. *)

Definition Lock {N} : M N unit :=
  λ g, if writer (mu g) || negb (readers (mu g) =? 0) then None
       else Some (tt, mk_graph (mk_mu true 0) (nodeList g) (nodeSources g) (nodeTargets g),
                  [EvLock]).

Definition Unlock {N} : M N unit :=
  λ g, if writer (mu g)
       then Some (tt, mk_graph (mk_mu false (readers (mu g)))
                        (nodeList g) (nodeSources g) (nodeTargets g), [EvUnlock])
       else None.

Definition RLock {N} : M N unit :=
  λ g, if writer (mu g) then None
       else Some (tt, mk_graph (mk_mu false (S (readers (mu g))))
                        (nodeList g) (nodeSources g) (nodeTargets g), [EvRLock]).

Definition RUnlock {N} : M N unit :=
  λ g, match readers (mu g) with
       | O => None
       | S n => Some (tt, mk_graph (mk_mu (writer (mu g)) n)
                            (nodeList g) (nodeSources g) (nodeTargets g), [EvRUnlock])
       end.

(** Assignments to the three fields.  An update in place of a map, such as
    [g.nodeList[id] = nd] or [delete(tmap, id)], is the assignment of the
    updated map. *)
Definition set_nodeList {N} (m : gmap ID N) : M N unit :=
  λ g, Some (tt, mk_graph (mu g) m (nodeSources g) (nodeTargets g), [EvStore FnodeList]).

Definition set_nodeSources {N} (m : gmap ID (gmap ID float)) : M N unit :=
  λ g, Some (tt, mk_graph (mu g) (nodeList g) m (nodeTargets g), [EvStore FnodeSources]).

Definition set_nodeTargets {N} (m : gmap ID (gmap ID float)) : M N unit :=
  λ g, Some (tt, mk_graph (mu g) (nodeList g) (nodeSources g) m, [EvStore FnodeTargets]).

(** Monadic left fold, for [range] loops whose body calls methods. *)
Fixpoint foldM {N A B} (f : A → B → M N A) (l : list B) (a : A) : M N A :=
  match l with
  | [] => ret a
  | x :: l' => a' <- f a x ;; foldM f l' a'
  end.

(** ** The methods of [graph] *)

Definition NewGraph {N} : graph N := mk_graph (mk_mu false 0) ∅ ∅ ∅.

Section methods.
Context {N : Type} `{!Node N}.

Definition Init : M N unit :=
  set_nodeList ∅ ;;;
  set_nodeSources ∅ ;;;
  set_nodeTargets ∅.

Definition GetNodeCount : M N Z :=
  RLock ;;; defer RUnlock (
    g <- get ;;
    ret (Z.of_nat (size (nodeList g)))).

Definition GetNode (id : ID) : M N (option N) :=
  RLock ;;; defer RUnlock (
    g <- get ;;
    ret (nodeList g !! id)).

(** The Go method returns the map itself, not a copy; the result here is
    its value at the time of the call. *)
Definition GetNodes : M N (gmap ID N) :=
  RLock ;;; defer RUnlock (
    g <- get ;;
    ret (nodeList g)).

Definition unsafeIdExist (id : ID) : M N bool :=
  g <- get ;;
  ret (match nodeList g !! id with Some _ => true | None => false end).

(** [nd] is a non-nil [Node]; on nil, [nd.GetId()] panics. *)
Definition AddNode (nd : N) : M N bool :=
  Lock ;;; defer Unlock (
    ok <- unsafeIdExist (GetId nd) ;;
    if ok then ret false else
    let id := GetId nd in
    g <- get ;;
    set_nodeList (<[id := nd]> (nodeList g)) ;;;
    ret true).

(** The two [range] loops delete [id] from every inner map. *)
Definition DeleteNode (id : ID) : M N bool :=
  Lock ;;; defer Unlock (
    ok <- unsafeIdExist id ;;
    if negb ok then ret false else
    g <- get ;;
    set_nodeList (delete id (nodeList g)) ;;;
    g <- get ;;
    set_nodeTargets (delete id (nodeTargets g)) ;;;
    g <- get ;;
    set_nodeTargets ((λ tmap, delete id tmap) <$> nodeTargets g) ;;;
    g <- get ;;
    set_nodeSources (delete id (nodeSources g)) ;;;
    g <- get ;;
    set_nodeSources ((λ smap, delete id smap) <$> nodeSources g) ;;;
    ret true).

(** An [error] result is [None] for nil. *)
Definition AddEdge (id pid : ID) (wgt : float) : M N (option error) :=
  Lock ;;; defer Unlock (
    ok <- unsafeIdExist id ;;
    if negb ok then ret (Some (ErrNotExist id)) else
    ok <- unsafeIdExist pid ;;
    if negb ok then ret (Some (ErrNotExist pid)) else
    g <- get ;;
    match nodeTargets g !! pid with
    | Some tmap =>
        match tmap !! id with
        | Some w => set_nodeTargets (<[pid := <[id := (w + wgt)%float]> tmap]> (nodeTargets g))
        | None => set_nodeTargets (<[pid := <[id := wgt]> tmap]> (nodeTargets g))
        end
    | None => set_nodeTargets (<[pid := {[id := wgt]}]> (nodeTargets g))
    end ;;;
    g <- get ;;
    match nodeSources g !! id with
    | Some smap =>
        match smap !! pid with
        | Some w => set_nodeSources (<[id := <[pid := (w + wgt)%float]> smap]> (nodeSources g))
        | None => set_nodeSources (<[id := <[pid := wgt]> smap]> (nodeSources g))
        end
    | None => set_nodeSources (<[id := {[pid := wgt]}]> (nodeSources g))
    end ;;;
    ret None).

Definition ReplaceEdge (id pid : ID) (wgt : float) : M N (option error) :=
  Lock ;;; defer Unlock (
    ok <- unsafeIdExist id ;;
    if negb ok then ret (Some (ErrNotExist id)) else
    ok <- unsafeIdExist pid ;;
    if negb ok then ret (Some (ErrNotExist pid)) else
    g <- get ;;
    match nodeTargets g !! pid with
    | Some tmap => set_nodeTargets (<[pid := <[id := wgt]> tmap]> (nodeTargets g))
    | None => set_nodeTargets (<[pid := {[id := wgt]}]> (nodeTargets g))
    end ;;;
    g <- get ;;
    match nodeSources g !! id with
    | Some smap => set_nodeSources (<[id := <[pid := wgt]> smap]> (nodeSources g))
    | None => set_nodeSources (<[id := {[pid := wgt]}]> (nodeSources g))
    end ;;;
    ret None).

Definition DeleteEdge (id pid : ID) : M N (option error) :=
  Lock ;;; defer Unlock (
    ok <- unsafeIdExist id ;;
    if negb ok then ret (Some (ErrNotExist id)) else
    ok <- unsafeIdExist pid ;;
    if negb ok then ret (Some (ErrNotExist pid)) else
    g <- get ;;
    match nodeTargets g !! pid with
    | Some tmap =>
        match tmap !! id with
        | Some _ => set_nodeTargets (<[pid := delete id tmap]> (nodeTargets g))
        | None => ret tt
        end
    | None => ret tt
    end ;;;
    g <- get ;;
    match nodeSources g !! id with
    | Some smap =>
        match smap !! pid with
        | Some _ => set_nodeSources (<[id := delete pid smap]> (nodeSources g))
        | None => ret tt
        end
    | None => ret tt
    end ;;;
    ret None).

Definition GetWeight (id pid : ID) : M N (float * option error) :=
  RLock ;;; defer RUnlock (
    ok <- unsafeIdExist id ;;
    if negb ok then ret (0%float, Some (ErrNotExist id)) else
    ok <- unsafeIdExist pid ;;
    if negb ok then ret (0%float, Some (ErrNotExist pid)) else
    g <- get ;;
    match nodeSources g !! id with
    | Some smap =>
        match smap !! pid with
        | Some w => ret (w, None)
        | None => ret (0%float, Some (ErrNoEdge pid id))
        end
    | None => ret (0%float, Some (ErrNoEdge pid id))
    end).

(** The result is nil ([None]) with an error, and otherwise a map from
    identities to Go [Node] values, each nil ([None]) when the node map has
    no such key.  The loop inserts under distinct keys, so its result does
    not depend on the order of the [range]. *)
Definition GetSources (id : ID) : M N (option (gmap ID (option N)) * option error) :=
  RLock ;;; defer RUnlock (
    ok <- unsafeIdExist id ;;
    if negb ok then ret (None, Some (ErrNotExist id)) else
    let s : gmap ID (option N) := ∅ in
    g <- get ;;
    match nodeSources g !! id with
    | Some smap =>
        ret (Some (map_fold (λ pid _ s, <[pid := nodeList g !! pid]> s) s smap), None)
    | None => ret (Some s, None)
    end).

Definition GetTargets (pid : ID) : M N (option (gmap ID (option N)) * option error) :=
  RLock ;;; defer RUnlock (
    ok <- unsafeIdExist pid ;;
    if negb ok then ret (None, Some (ErrNotExist pid)) else
    let t : gmap ID (option N) := ∅ in
    g <- get ;;
    match nodeTargets g !! pid with
    | Some tmap =>
        ret (Some (map_fold (λ pid _ t, <[pid := nodeList g !! pid]> t) t tmap), None)
    | None => ret (Some t, None)
    end).

(** The keys of a Go map in the enumeration order of the model; a [range]
    loop visits them in an order of the runtime's choosing. *)
Definition keys {A} (m : gmap ID A) : list ID := (map_to_list m).*1.

(** [JSON] ranges over two maps and its result depends on the order, so the
    orders are arguments: [order1] permutes the keys of the node map and
    [order2 id] the keys of [smap].  The value is [rs], the argument of the
    final call to [ffjson.Marshal], an encoder outside this package. *)
Definition JSON (order1 : list ID → list ID) (order2 : ID → list ID → list ID)
    : M N (gmap string (gmap string float)) :=
  RLock ;;; defer RUnlock (
    let rs : gmap string (gmap string float) := ∅ in
    g <- get ;;
    foldM (λ rs id,
      r <- GetSources id ;;
      let '(smap, err) := r in
      match err with
      | Some _ => ret rs
      | None =>
          foldM (λ rs pid,
            r <- GetWeight id pid ;;
            let '(wgt, err) := r in
            match err with
            | None =>
                match rs !! ID_String id with
                | Some inner =>
                    ret (<[ID_String id := <[ID_String id := wgt]> inner]> rs)
                | None =>
                    ret (<[ID_String id := {[ID_String pid := wgt]}]> rs)
                end
            | Some _ => ret rs
            end) (order2 id (keys (default ∅ smap))) rs
      end) (order1 (keys (nodeList g))) rs).

(** ** Sequences of calls on one store *)

Inductive call :=
  | CInit
  | CGetNodeCount
  | CGetNode (id : ID)
  | CGetNodes
  | CAddNode (nd : N)
  | CDeleteNode (id : ID)
  | CAddEdge (id pid : ID) (wgt : float)
  | CReplaceEdge (id pid : ID) (wgt : float)
  | CDeleteEdge (id pid : ID)
  | CGetWeight (id pid : ID)
  | CGetSources (id : ID)
  | CGetTargets (pid : ID)
  | CJSON (order1 : list ID → list ID) (order2 : ID → list ID → list ID).

(** A range order is a valid argument of [CJSON] when it permutes. *)
Definition shuffles (c : call) : Prop :=
  match c with
  | CJSON order1 order2 =>
      (∀ l, order1 l ≡ₚ l) ∧ (∀ id l, order2 id l ≡ₚ l)
  | _ => True
  end.

Definition perform (c : call) : M N unit :=
  match c with
  | CInit => Init
  | CGetNodeCount => GetNodeCount ;;; ret tt
  | CGetNode id => GetNode id ;;; ret tt
  | CGetNodes => GetNodes ;;; ret tt
  | CAddNode nd => AddNode nd ;;; ret tt
  | CDeleteNode id => DeleteNode id ;;; ret tt
  | CAddEdge id pid wgt => AddEdge id pid wgt ;;; ret tt
  | CReplaceEdge id pid wgt => ReplaceEdge id pid wgt ;;; ret tt
  | CDeleteEdge id pid => DeleteEdge id pid ;;; ret tt
  | CGetWeight id pid => GetWeight id pid ;;; ret tt
  | CGetSources id => GetSources id ;;; ret tt
  | CGetTargets pid => GetTargets pid ;;; ret tt
  | CJSON order1 order2 => JSON order1 order2 ;;; ret tt
  end.

Definition perform_all (cs : list call) : M N unit :=
  foldM (λ _ c, perform c) cs tt.

(** The stores a client can hold: [NewGraph()] followed by public calls. *)
Definition reachable (g : graph N) : Prop :=
  ∃ cs t, Forall shuffles cs ∧ perform_all cs NewGraph = Some (tt, g, t).

(** [k] calls of [AddEdge] on one pair, collecting the returned errors. *)
Definition AddEdge_each (id pid : ID) (wgts : list float) : M N (list (option error)) :=
  foldM (λ errs wgt, err <- AddEdge id pid wgt ;; ret (errs ++ [err])) wgts [].

(** Calls of [AddNode] in a row, collecting the returned booleans. *)
Definition AddNode_each (nds : list N) : M N (list bool) :=
  foldM (λ oks nd, ok <- AddNode nd ;; ret (oks ++ [ok])) nds [].

End methods.
Arguments call : clear implicits.

(** ** Vocabulary of the properties *)

(** [m] returns [a] on [g] and leaves the receiver as [g']. *)
Definition returns {N A} (m : M N A) (g : graph N) (a : A) (g' : graph N) : Prop :=
  ∃ t, m g = Some (a, g', t).

(** The events of a run that returns, and [[]] for one that does not. *)
Definition events {N A} (m : M N A) (g : graph N) : list event :=
  match m g with Some (_, _, t) => t | None => [] end.

Definition unlocked {N} (g : graph N) : Prop := mu g = mk_mu false 0.

#[export] Instance unlocked_dec {N} (g : graph N) : Decision (unlocked g).
Proof. unfold unlocked. apply _. Defined.

(** The entry of an index for an outer and an inner key. *)
Definition weight_in (m : gmap ID (gmap ID float)) (a b : ID) : option float :=
  m !! a ≫= (.!! b).

Definition has_node {N} (g : graph N) (id : ID) : Prop := is_Some (nodeList g !! id).

(** An identity occurs in an index as an outer or as an inner key. *)
Definition occurs_in (m : gmap ID (gmap ID float)) (a : ID) : Prop :=
  is_Some (m !! a) ∨ ∃ b, is_Some (weight_in m b a).

(** The index after [m[a][b] += w], [m[a][b] = w] and [delete(m[a], b)] as
    the three edge methods perform them. *)
Definition add_weight (m : gmap ID (gmap ID float)) (a b : ID) (w : float) :=
  match m !! a with
  | Some inner =>
      match inner !! b with
      | Some x => <[a := <[b := (x + w)%float]> inner]> m
      | None => <[a := <[b := w]> inner]> m
      end
  | None => <[a := {[b := w]}]> m
  end.

Definition set_weight (m : gmap ID (gmap ID float)) (a b : ID) (w : float) :=
  match m !! a with
  | Some inner => <[a := <[b := w]> inner]> m
  | None => <[a := {[b := w]}]> m
  end.

Definition del_weight (m : gmap ID (gmap ID float)) (a b : ID) :=
  match m !! a with
  | Some inner =>
      match inner !! b with
      | Some _ => <[a := delete b inner]> m
      | None => m
      end
  | None => m
  end.

(** The two indices transpose each other. *)
Definition mirrored {N} (g : graph N) : Prop :=
  ∀ a b, weight_in (nodeTargets g) a b = weight_in (nodeSources g) b a.

(** Every identity that occurs in an index is a key of the node map. *)
Definition keys_are_nodes {N} (g : graph N) : Prop :=
  ∀ a, occurs_in (nodeSources g) a ∨ occurs_in (nodeTargets g) a → has_node g a.

Definition consistent {N} (g : graph N) : Prop :=
  unlocked g ∧ mirrored g ∧ keys_are_nodes g.

(** The map [GetSources] and [GetTargets] build from an inner map. *)
Definition neighbours {N} (nl : gmap ID N) (m : gmap ID float) : gmap ID (option N) :=
  map_fold (λ pid _ s, <[pid := nl !! pid]> s) ∅ m.

(** The value [rs] of [JSON] for given range orders, [nodes] for the node
    map and [srcs id] for [smap]: the inner loop body, the outer loop body
    and the whole. *)
Definition JSON_inner {N} (g : graph N) (id : ID)
    (rs : gmap string (gmap string float)) (pid : ID) :=
  match nodeList g !! pid, weight_in (nodeSources g) id pid with
  | Some _, Some wgt =>
      match rs !! ID_String id with
      | Some inner => <[ID_String id := <[ID_String id := wgt]> inner]> rs
      | None => <[ID_String id := {[ID_String pid := wgt]}]> rs
      end
  | _, _ => rs
  end.

Definition JSON_outer {N} (g : graph N) (srcs : ID → list ID)
    (rs : gmap string (gmap string float)) (id : ID) :=
  match nodeList g !! id with
  | None => rs
  | Some _ => fold_left (JSON_inner g id) (srcs id) rs
  end.

Definition JSON_rs {N} (g : graph N) (nodes : list ID) (srcs : ID → list ID)
    : gmap string (gmap string float) :=
  fold_left (JSON_outer g srcs) nodes ∅.

(** *** Lock discipline of a run, read off its events *)

Definition is_store (e : event) : bool :=
  match e with EvStore _ => true | _ => false end.

(** Every store of the run happens while the run holds the write lock. *)
Fixpoint stores_under_lock (held : bool) (t : list event) : bool :=
  match t with
  | [] => true
  | EvLock :: t' => stores_under_lock true t'
  | EvUnlock :: t' => stores_under_lock false t'
  | EvStore _ :: t' => held && stores_under_lock held t'
  | _ :: t' => stores_under_lock held t'
  end.

(** The run takes the write lock first, releases it last and only stores
    in between. *)
Definition locked_throughout (t : list event) : bool :=
  match t with
  | EvLock :: t' =>
      match reverse t' with
      | EvUnlock :: body => forallb is_store body
      | _ => false
      end
  | _ => false
  end.

(** The run performs no store. *)
Definition reads_only (t : list event) : bool :=
  forallb (λ e, negb (is_store e)) t.

(** The run returns, performs no store and leaves the receiver, its mutex
    included, as it found it. *)
Definition leaves_untouched {N A} (m : M N A) (g : graph N) : Prop :=
  ∃ r t, m g = Some (r, g, t) ∧ reads_only t = true.

(** The two kinds of failure of the package, by the format of the message. *)
Definition NodeNotFound (e : error) (i : ID) : Prop := e = ErrNotExist i.
Definition EdgeNotFound (e : error) : Prop := ∃ p i, e = ErrNoEdge p i.

(** ** Stores of the test file

    [kraph_test.go] builds its graph from [node1], [node2] and [node3]. *)
Definition node1 : ID := NewNID "node1".
Definition node2 : ID := NewNID "node2".
Definition node3 : ID := NewNID "node3".

Definition test_nodes : list (call node) :=
  [CAddNode (NewNode node1); CAddNode (NewNode node2); CAddNode (NewNode node3);
   CAddNode (NewNode node1)].

Definition test_edges : list (call node) :=
  [CAddEdge node1 node2 12; CAddEdge node1 node3 10; CAddEdge node1 node2 1].

(** The store after the four [AddNode] calls of the test. *)
Definition store_nodes : graph node :=
  mk_graph (mk_mu false 0)
    {[node1 := NewNode node1; node2 := NewNode node2; node3 := NewNode node3]} ∅ ∅.

(** The store after the first [AddEdge] call that follows. *)
Definition store_first_edge : graph node :=
  mk_graph (mk_mu false 0) (nodeList store_nodes)
    {[node1 := {[node2 := 12%float]}]}
    {[node2 := {[node1 := 12%float]}]}.

(** The store after the three [AddEdge] calls. *)
Definition store_edges : graph node :=
  mk_graph (mk_mu false 0) (nodeList store_nodes)
    {[node1 := {[node2 := 13%float; node3 := 10%float]}]}
    {[node2 := {[node1 := 13%float]}; node3 := {[node1 := 10%float]}]}.

(** * Properties *)

(** ** Symbolic runs of the methods *)

Ltac unfold_method :=
  unfold Init, GetNodeCount, GetNode, GetNodes, AddNode, DeleteNode, AddEdge,
    ReplaceEdge, DeleteEdge, GetWeight, GetSources, GetTargets,
    defer, unsafeIdExist, bind, ret, get, Lock, Unlock, RLock, RUnlock,
    set_nodeList, set_nodeSources, set_nodeTargets.

(** Open the receiver, fix its lock state from the hypothesis and run. *)
Ltac run_unlocked g :=
  let H := fresh in
  destruct g as [[? ?] ? ? ?]; unfold unlocked; simpl; intros H;
  injection H as -> ->; unfold_method; simpl.

(** Decide the map lookups the run branches on, innermost first. *)
Ltac case_lookups :=
  repeat match goal with
         | |- context [ @lookup _ _ _ _ ?k ?m ] =>
             let E := fresh "E" in destruct (m !! k) eqn:E; simplify_eq/=
         end.

Ltac run_readable g :=
  let H := fresh in
  destruct g as [[? ?] ? ? ?]; simpl; intros H;
  rewrite H; unfold_method; simpl.

Section run.
Context {N : Type} `{!Node N}.
Implicit Types (g : graph N) (id pid : ID) (nd : N) (wgt : float).

Lemma Init_run g :
  Init g = Some (tt, mk_graph (mu g) ∅ ∅ ∅,
                 [EvStore FnodeList; EvStore FnodeSources; EvStore FnodeTargets]).
Proof. reflexivity. Qed.

Lemma GetNodeCount_run g :
  writer (mu g) = false →
  GetNodeCount g = Some (Z.of_nat (size (nodeList g)), g, [EvRLock; EvRUnlock]).
Proof. run_readable g. reflexivity. Qed.

Lemma GetNode_run g id :
  writer (mu g) = false →
  GetNode id g = Some (nodeList g !! id, g, [EvRLock; EvRUnlock]).
Proof. run_readable g. reflexivity. Qed.

Lemma GetNodes_run g :
  writer (mu g) = false →
  GetNodes g = Some (nodeList g, g, [EvRLock; EvRUnlock]).
Proof. run_readable g. reflexivity. Qed.

Lemma AddNode_run g nd :
  unlocked g →
  AddNode nd g =
    Some match nodeList g !! GetId nd with
         | Some _ => (false, g, [EvLock; EvUnlock])
         | None =>
             (true,
              mk_graph (mu g) (<[GetId nd := nd]> (nodeList g))
                (nodeSources g) (nodeTargets g),
              [EvLock; EvStore FnodeList; EvUnlock])
         end.
Proof. run_unlocked g. by case_lookups. Qed.

Lemma DeleteNode_run g id :
  unlocked g →
  DeleteNode id g =
    Some match nodeList g !! id with
         | None => (false, g, [EvLock; EvUnlock])
         | Some _ =>
             (true,
              mk_graph (mu g) (delete id (nodeList g))
                (delete id <$> delete id (nodeSources g))
                (delete id <$> delete id (nodeTargets g)),
              [EvLock; EvStore FnodeList; EvStore FnodeTargets; EvStore FnodeTargets;
               EvStore FnodeSources; EvStore FnodeSources; EvUnlock])
         end.
Proof. run_unlocked g. by case_lookups. Qed.

Lemma AddEdge_run g id pid wgt :
  unlocked g →
  AddEdge id pid wgt g =
    Some match nodeList g !! id, nodeList g !! pid with
         | None, _ => (Some (ErrNotExist id), g, [EvLock; EvUnlock])
         | Some _, None => (Some (ErrNotExist pid), g, [EvLock; EvUnlock])
         | Some _, Some _ =>
             (None,
              mk_graph (mu g) (nodeList g)
                (add_weight (nodeSources g) id pid wgt)
                (add_weight (nodeTargets g) pid id wgt),
              [EvLock; EvStore FnodeTargets; EvStore FnodeSources; EvUnlock])
         end.
Proof.
  run_unlocked g. unfold add_weight.
  by case_lookups.
Qed.

Lemma ReplaceEdge_run g id pid wgt :
  unlocked g →
  ReplaceEdge id pid wgt g =
    Some match nodeList g !! id, nodeList g !! pid with
         | None, _ => (Some (ErrNotExist id), g, [EvLock; EvUnlock])
         | Some _, None => (Some (ErrNotExist pid), g, [EvLock; EvUnlock])
         | Some _, Some _ =>
             (None,
              mk_graph (mu g) (nodeList g)
                (set_weight (nodeSources g) id pid wgt)
                (set_weight (nodeTargets g) pid id wgt),
              [EvLock; EvStore FnodeTargets; EvStore FnodeSources; EvUnlock])
         end.
Proof.
  run_unlocked g. unfold set_weight.
  by case_lookups.
Qed.

Lemma DeleteEdge_run g id pid :
  unlocked g →
  DeleteEdge id pid g =
    Some match nodeList g !! id, nodeList g !! pid with
         | None, _ => (Some (ErrNotExist id), g, [EvLock; EvUnlock])
         | Some _, None => (Some (ErrNotExist pid), g, [EvLock; EvUnlock])
         | Some _, Some _ =>
             (None,
              mk_graph (mu g) (nodeList g)
                (del_weight (nodeSources g) id pid)
                (del_weight (nodeTargets g) pid id),
              EvLock ::
                match weight_in (nodeTargets g) pid id with
                | Some _ => [EvStore FnodeTargets]
                | None => []
                end ++
                match weight_in (nodeSources g) id pid with
                | Some _ => [EvStore FnodeSources]
                | None => []
                end ++
                [EvUnlock])
         end.
Proof.
  run_unlocked g. unfold del_weight, weight_in.
  by case_lookups.
Qed.

Lemma GetWeight_run g id pid :
  writer (mu g) = false →
  GetWeight id pid g =
    Some (match nodeList g !! id, nodeList g !! pid with
          | None, _ => (0%float, Some (ErrNotExist id))
          | Some _, None => (0%float, Some (ErrNotExist pid))
          | Some _, Some _ =>
              match weight_in (nodeSources g) id pid with
              | Some w => (w, None)
              | None => (0%float, Some (ErrNoEdge pid id))
              end
          end, g, [EvRLock; EvRUnlock]).
Proof.
  run_readable g. unfold weight_in.
  by case_lookups.
Qed.

Lemma GetSources_run g id :
  writer (mu g) = false →
  GetSources id g =
    Some (match nodeList g !! id with
          | None => (None, Some (ErrNotExist id))
          | Some _ =>
              (Some (neighbours (nodeList g) (default ∅ (nodeSources g !! id))), None)
          end, g, [EvRLock; EvRUnlock]).
Proof. run_readable g. unfold neighbours. by case_lookups. Qed.

Lemma GetTargets_run g pid :
  writer (mu g) = false →
  GetTargets pid g =
    Some (match nodeList g !! pid with
          | None => (None, Some (ErrNotExist pid))
          | Some _ =>
              (Some (neighbours (nodeList g) (default ∅ (nodeTargets g !! pid))), None)
          end, g, [EvRLock; EvRUnlock]).
Proof. run_readable g. unfold neighbours. by case_lookups. Qed.

(** A loop whose body returns without changing the receiver is a fold. *)
Lemma foldM_pure {A B} (f : A → B → M N A) (h : A → B → A) g :
  (∀ a x, ∃ t, f a x g = Some (h a x, g, t)) →
  ∀ l a, ∃ t, foldM f l a g = Some (fold_left h l a, g, t).
Proof.
  intros Hf l. induction l as [|x l IH]; intros a; simpl.
  - by eexists.
  - destruct (Hf a x) as [t1 Ht1]. destruct (IH (h a x)) as [t2 Ht2].
    exists (t1 ++ t2). unfold bind. by rewrite Ht1, Ht2.
Qed.

Lemma JSON_run g order1 order2 :
  writer (mu g) = false →
  ∃ t, JSON order1 order2 g =
    Some (JSON_rs g (order1 (keys (nodeList g)))
            (λ id, order2 id
               (keys (neighbours (nodeList g) (default ∅ (nodeSources g !! id))))),
          g, t).
Proof.
  destruct g as [[wr rd] nl ns nt]; simpl; intros ->.
  unfold JSON, defer, RLock, RUnlock, get, JSON_rs. unfold bind at 1 2 3 4. simpl.
  set (g := mk_graph (mk_mu false rd) nl ns nt).
  set (g1 := mk_graph (mk_mu false (S rd)) nl ns nt).
  set (srcs := λ id, order2 id (keys (neighbours nl (default ∅ (ns !! id))))).
  match goal with
  | |- context [ foldM ?f ?l ?a g1 ] =>
      assert (∀ a' x, ∃ t, f a' x g1 = Some (JSON_outer g srcs a' x, g1, t)) as Hf;
        [|destruct (foldM_pure f _ g1 Hf l a) as [t Ht]; rewrite Ht; simpl; by eexists]
  end.
  intros rs id. unfold bind, JSON_outer.
  rewrite GetSources_run by done. simpl.
  destruct (nl !! id) eqn:Eid; simpl; last by eexists.
  match goal with
  | |- context [ foldM ?f ?l ?a g1 ] =>
      assert (∀ a' x, ∃ t, f a' x g1 = Some (JSON_inner g id a' x, g1, t)) as Hf;
        [|destruct (foldM_pure f _ g1 Hf l a) as [t Ht]; rewrite Ht; simpl; by eexists]
  end.
  intros rs' pid. unfold bind, JSON_inner.
  rewrite GetWeight_run by done. simpl. rewrite Eid.
  destruct (nl !! pid); simpl; last by eexists.
  destruct (weight_in ns id pid); simpl; last by eexists.
  unfold ret. destruct (rs' !! ID_String id); by eexists.
Qed.

End run.

(** ** The indices after an update *)

Section index.
Implicit Types (m : gmap ID (gmap ID float)) (a b id : ID) (w : float).

Lemma weight_in_add_weight m a b w a' b' :
  weight_in (add_weight m a b w) a' b' =
    if decide (a = a' ∧ b = b')
    then Some match weight_in m a b with Some x => (x + w)%float | None => w end
    else weight_in m a' b'.
Proof.
  unfold weight_in, add_weight.
  destruct (m !! a) as [inner|] eqn:Ea; simpl; [destruct (inner !! b) eqn:Eb|];
    (destruct (decide (a = a')) as [<-|];
     [rewrite lookup_insert_eq; simpl;
      destruct (decide (b = b')) as [<-|];
      [rewrite decide_True by done|rewrite decide_False by naive_solver];
      rewrite ?Ea; simpl;
      rewrite ?lookup_insert_eq, ?lookup_singleton_eq, ?lookup_insert_ne,
        ?lookup_singleton_ne by done; done
     |rewrite lookup_insert_ne by done; rewrite decide_False by naive_solver; done]).
Qed.

Lemma weight_in_set_weight m a b w a' b' :
  weight_in (set_weight m a b w) a' b' =
    if decide (a = a' ∧ b = b') then Some w else weight_in m a' b'.
Proof.
  unfold weight_in, set_weight.
  destruct (m !! a) as [inner|] eqn:Ea; simpl;
    (destruct (decide (a = a')) as [<-|];
     [rewrite lookup_insert_eq; simpl;
      destruct (decide (b = b')) as [<-|];
      [rewrite decide_True by done|rewrite decide_False by naive_solver];
      rewrite ?Ea; simpl;
      rewrite ?lookup_insert_eq, ?lookup_singleton_eq, ?lookup_insert_ne,
        ?lookup_singleton_ne by done; done
     |rewrite lookup_insert_ne by done; rewrite decide_False by naive_solver; done]).
Qed.

Lemma weight_in_del_weight m a b a' b' :
  weight_in (del_weight m a b) a' b' =
    if decide (a = a' ∧ b = b') then None else weight_in m a' b'.
Proof.
  unfold weight_in, del_weight.
  destruct (m !! a) as [inner|] eqn:Ea; simpl; [destruct (inner !! b) eqn:Eb|];
    (destruct (decide (a = a')) as [<-|];
     [rewrite ?lookup_insert_eq, ?Ea; simpl;
      destruct (decide (b = b')) as [<-|];
      [rewrite decide_True by done|rewrite decide_False by naive_solver];
      rewrite ?lookup_delete_eq, ?lookup_delete_ne by done; done
     |rewrite ?lookup_insert_ne by done; rewrite decide_False by naive_solver; done]).
Qed.

(** [DeleteNode] on one index: the outer entry and every inner entry. *)
Lemma weight_in_purge m id a b :
  weight_in (delete id <$> delete id m) a b =
    if decide (a = id ∨ b = id) then None else weight_in m a b.
Proof.
  unfold weight_in. rewrite lookup_fmap.
  destruct (decide (a = id)) as [->|].
  - rewrite lookup_delete_eq. simpl. by rewrite decide_True by auto.
  - rewrite lookup_delete_ne by done.
    destruct (m !! a) as [inner|]; simpl; [|by case_decide].
    destruct (decide (b = id)) as [->|].
    + rewrite lookup_delete_eq. by rewrite decide_True by auto.
    + rewrite lookup_delete_ne by done. by rewrite decide_False by naive_solver.
Qed.

Lemma outer_add_weight m a b w k :
  is_Some (add_weight m a b w !! k) ↔ k = a ∨ is_Some (m !! k).
Proof.
  unfold add_weight.
  destruct (m !! a) as [inner|] eqn:Ea; [destruct (inner !! b)|];
    rewrite lookup_insert_is_Some; destruct (decide (a = k)); naive_solver.
Qed.

Lemma outer_set_weight m a b w k :
  is_Some (set_weight m a b w !! k) ↔ k = a ∨ is_Some (m !! k).
Proof.
  unfold set_weight.
  destruct (m !! a) as [inner|] eqn:Ea;
    rewrite lookup_insert_is_Some; destruct (decide (a = k)); naive_solver.
Qed.

Lemma outer_del_weight m a b k :
  is_Some (del_weight m a b !! k) ↔ is_Some (m !! k).
Proof.
  unfold del_weight.
  destruct (m !! a) as [inner|] eqn:Ea; [destruct (inner !! b)|]; try done.
  rewrite lookup_insert_is_Some. destruct (decide (a = k)); naive_solver.
Qed.

Lemma outer_purge m id k :
  is_Some ((delete id <$> delete id m) !! k) ↔ k ≠ id ∧ is_Some (m !! k).
Proof.
  rewrite lookup_fmap, fmap_is_Some, lookup_delete_is_Some. naive_solver.
Qed.

Lemma occurs_add_weight m a b w k :
  occurs_in (add_weight m a b w) k → k = a ∨ k = b ∨ occurs_in m k.
Proof.
  unfold occurs_in. intros [Hk|[c Hk]].
  - apply outer_add_weight in Hk. naive_solver.
  - rewrite weight_in_add_weight in Hk. case_decide; naive_solver.
Qed.

Lemma occurs_set_weight m a b w k :
  occurs_in (set_weight m a b w) k → k = a ∨ k = b ∨ occurs_in m k.
Proof.
  unfold occurs_in. intros [Hk|[c Hk]].
  - apply outer_set_weight in Hk. naive_solver.
  - rewrite weight_in_set_weight in Hk. case_decide; naive_solver.
Qed.

Lemma occurs_del_weight m a b k :
  occurs_in (del_weight m a b) k → occurs_in m k.
Proof.
  unfold occurs_in. intros [Hk|[c Hk]].
  - apply outer_del_weight in Hk. naive_solver.
  - rewrite weight_in_del_weight in Hk. case_decide; [by destruct Hk|naive_solver].
Qed.

Lemma occurs_purge m id k :
  occurs_in (delete id <$> delete id m) k → k ≠ id ∧ occurs_in m k.
Proof.
  unfold occurs_in. intros [Hk|[c Hk]].
  - apply outer_purge in Hk. naive_solver.
  - rewrite weight_in_purge in Hk. case_decide; [by destruct Hk|naive_solver].
Qed.

End index.

(** ** The state a client can reach *)

Section consistency.
Context {N : Type} `{!Node N}.
Implicit Types (g : graph N) (id pid : ID) (nd : N) (wgt : float).

Lemma consistent_NewGraph : consistent (NewGraph (N:=N)).
Proof.
  split; [done|]. split.
  - intros a b. done.
  - intros a [[H|[b H]]|[H|[b H]]]; simpl in *;
      unfold weight_in in *; rewrite ?lookup_empty in H; by destruct H.
Qed.

Lemma consistent_Init g :
  consistent g → consistent (mk_graph (mu g) (∅ : gmap ID N) ∅ ∅).
Proof. intros [? _]. by destruct (consistent_NewGraph) as (_ & ? & ?). Qed.

Lemma consistent_AddNode g nd :
  consistent g →
  consistent (mk_graph (mu g) (<[GetId nd := nd]> (nodeList g))
                (nodeSources g) (nodeTargets g)).
Proof.
  intros (? & ? & Hk). split; [done|]. split; [done|].
  intros a Ha. unfold has_node; simpl. rewrite lookup_insert_is_Some.
  destruct (decide (GetId nd = a)); [by left|right]. split; [done|]. by apply Hk.
Qed.

Lemma consistent_DeleteNode g id :
  consistent g →
  consistent (mk_graph (mu g) (delete id (nodeList g))
                (delete id <$> delete id (nodeSources g))
                (delete id <$> delete id (nodeTargets g))).
Proof.
  intros (? & Hm & Hk). split; [done|]. split.
  - intros a b; simpl. rewrite !weight_in_purge, Hm.
    destruct (decide (a = id)), (decide (b = id));
      repeat case_decide; naive_solver.
  - intros a Ha; simpl in *. unfold has_node; simpl.
    rewrite lookup_delete_is_Some.
    destruct Ha as [Ha|Ha]; apply occurs_purge in Ha as [? Ha];
      (split; [done|apply Hk; auto]).
Qed.

Lemma consistent_AddEdge g id pid wgt :
  has_node g id → has_node g pid → consistent g →
  consistent (mk_graph (mu g) (nodeList g)
                (add_weight (nodeSources g) id pid wgt)
                (add_weight (nodeTargets g) pid id wgt)).
Proof.
  intros Hid Hpid (? & Hm & Hk). split; [done|]. split.
  - intros a b; simpl. rewrite !weight_in_add_weight, !Hm.
    repeat case_decide; naive_solver.
  - intros a Ha; simpl in *. unfold has_node; simpl.
    destruct Ha as [Ha|Ha]; apply occurs_add_weight in Ha as [->|[->|Ha]];
      try done; apply Hk; auto.
Qed.

Lemma consistent_ReplaceEdge g id pid wgt :
  has_node g id → has_node g pid → consistent g →
  consistent (mk_graph (mu g) (nodeList g)
                (set_weight (nodeSources g) id pid wgt)
                (set_weight (nodeTargets g) pid id wgt)).
Proof.
  intros Hid Hpid (? & Hm & Hk). split; [done|]. split.
  - intros a b; simpl. rewrite !weight_in_set_weight, !Hm.
    repeat case_decide; naive_solver.
  - intros a Ha; simpl in *. unfold has_node; simpl.
    destruct Ha as [Ha|Ha]; apply occurs_set_weight in Ha as [->|[->|Ha]];
      try done; apply Hk; auto.
Qed.

Lemma consistent_DeleteEdge g id pid :
  consistent g →
  consistent (mk_graph (mu g) (nodeList g)
                (del_weight (nodeSources g) id pid)
                (del_weight (nodeTargets g) pid id)).
Proof.
  intros (? & Hm & Hk). split; [done|]. split.
  - intros a b; simpl. rewrite !weight_in_del_weight, !Hm.
    repeat case_decide; naive_solver.
  - intros a Ha; simpl in *. unfold has_node; simpl.
    destruct Ha as [Ha|Ha]; apply occurs_del_weight in Ha; apply Hk; auto.
Qed.

Lemma unlocked_readable g : unlocked g → writer (mu g) = false.
Proof. by intros ->. Qed.

(** Every public call returns on a consistent store and leaves it so. *)
Lemma perform_consistent (c : call N) g :
  shuffles c → consistent g →
  ∃ g' t, perform c g = Some (tt, g', t) ∧ consistent g'.
Proof.
  intros Hc Hg. pose proof Hg as (Hu & _ & _).
  pose proof (unlocked_readable _ Hu) as Hr.
  destruct c as [| |id| |nd|id|id pid wgt|id pid wgt|id pid|id pid|id|pid|order1 order2];
    simpl; unfold bind.
  - rewrite Init_run. eauto using consistent_Init.
  - rewrite GetNodeCount_run by done. eauto.
  - rewrite GetNode_run by done. eauto.
  - rewrite GetNodes_run by done. eauto.
  - rewrite AddNode_run by done.
    destruct (nodeList g !! GetId nd); simpl; eauto using consistent_AddNode.
  - rewrite DeleteNode_run by done.
    destruct (nodeList g !! id); simpl; eauto using consistent_DeleteNode.
  - rewrite AddEdge_run by done.
    destruct (nodeList g !! id) eqn:?, (nodeList g !! pid) eqn:?; simpl; eauto.
    do 2 eexists; split; [done|]. apply consistent_AddEdge; unfold has_node; eauto.
  - rewrite ReplaceEdge_run by done.
    destruct (nodeList g !! id) eqn:?, (nodeList g !! pid) eqn:?; simpl; eauto.
    do 2 eexists; split; [done|]. apply consistent_ReplaceEdge; unfold has_node; eauto.
  - rewrite DeleteEdge_run by done.
    destruct (nodeList g !! id) eqn:?, (nodeList g !! pid) eqn:?; simpl;
      eauto using consistent_DeleteEdge.
  - rewrite GetWeight_run by done. eauto.
  - rewrite GetSources_run by done. eauto.
  - rewrite GetTargets_run by done. eauto.
  - destruct (JSON_run g order1 order2 Hr) as [t ->]. eauto.
Qed.

Lemma perform_all_consistent (cs : list (call N)) g :
  Forall shuffles cs → consistent g →
  ∃ g' t, perform_all cs g = Some (tt, g', t) ∧ consistent g'.
Proof.
  unfold perform_all. intros Hcs. revert g.
  induction Hcs as [|c cs Hc _ IH]; intros g Hg; simpl.
  - unfold ret. eauto.
  - destruct (perform_consistent c g Hc Hg) as (g1 & t1 & E1 & Hg1).
    destruct (IH g1 Hg1) as (g2 & t2 & E2 & Hg2).
    unfold bind. rewrite E1, E2. eauto.
Qed.

Lemma reachable_consistent g : reachable g → consistent g.
Proof.
  intros (cs & t & Hcs & E).
  destruct (perform_all_consistent cs NewGraph Hcs consistent_NewGraph)
    as (g' & t' & E' & Hg').
  congruence.
Qed.

End consistency.

(** ** Blocking *)

Section blocking.
Context {N : Type} `{!Node N}.
Implicit Types (g : graph N) (id pid : ID) (nd : N) (wgt : float).

Lemma Lock_blocks g : ¬ unlocked g → Lock g = None.
Proof.
  by destruct g as [[[] [|rd]] nl ns nt].
Qed.

Lemma RLock_blocks g : writer (mu g) = true → RLock g = None.
Proof. unfold RLock. by intros ->. Qed.

Lemma bind_blocks {A B} (m : M N A) (k : A → M N B) g :
  m g = None → bind m k g = None.
Proof. unfold bind. by intros ->. Qed.

(** A method that starts by taking the write lock returns only on an
    unlocked store, and one that starts by taking the read lock only when
    no writer holds it. *)
Lemma Lock_first {A} (k : unit → M N A) g r :
  bind Lock k g = Some r → unlocked g.
Proof.
  intros E. destruct (decide (unlocked g)) as [|Hl]; [done|].
  by rewrite (bind_blocks _ _ _ (Lock_blocks g Hl)) in E.
Qed.

Lemma RLock_first {A} (k : unit → M N A) g r :
  bind RLock k g = Some r → writer (mu g) = false.
Proof.
  intros E. destruct (writer (mu g)) eqn:Hw; [|done].
  by rewrite (bind_blocks _ _ _ (RLock_blocks g Hw)) in E.
Qed.

End blocking.

(** ** Nodes *)

Section claims.
Context {N : Type} `{!Node N}.
Implicit Types (g : graph N) (id pid : ID) (nd : N) (wgt : float).

Lemma has_node_lookup g id : has_node g id → ∃ n, nodeList g !! id = Some n.
Proof. by intros [n ?]; exists n. Qed.

Lemma not_has_node_lookup g id : ¬ has_node g id → nodeList g !! id = None.
Proof. unfold has_node. by rewrite eq_None_not_Some. Qed.

Lemma graph_eta g :
  mk_graph (mu g) (nodeList g) (nodeSources g) (nodeTargets g) = g.
Proof. by destruct g. Qed.

(** C7: on an unlocked store, [AddNode nd] with an identity already in the
    node map returns false and leaves the store exactly as it was; with a
    new identity it returns true, the node map gains [nd] under its
    identity, both indices are as before, and [GetNodeCount] is one more
    than it was. *)
Theorem AddNode_rejects_or_inserts g nd :
  unlocked g →
  (has_node g (GetId nd) → returns (AddNode nd) g false g) ∧
  (¬ has_node g (GetId nd) →
     ∃ g' n, returns (AddNode nd) g true g' ∧
       nodeList g' = <[GetId nd := nd]> (nodeList g) ∧
       nodeSources g' = nodeSources g ∧ nodeTargets g' = nodeTargets g ∧
       returns GetNodeCount g n g ∧ returns GetNodeCount g' (n + 1)%Z g').
Proof.
  intros Hu. unfold returns. rewrite AddNode_run by done. split.
  - intros [n ->]%has_node_lookup. eauto.
  - intros Hn%not_has_node_lookup. rewrite Hn.
    eexists _, _. split; [eauto|]. do 3 (split; [done|]).
    rewrite !GetNodeCount_run by (simpl; by apply unlocked_readable).
    split; [eauto|]. simpl. rewrite map_size_insert_None by done.
    rewrite Nat2Z.inj_succ. eauto.
Qed.

(** ** Edges *)

Lemma del_weight_absent (m : gmap ID (gmap ID float)) a b :
  weight_in m a b = None → del_weight m a b = m.
Proof.
  unfold weight_in, del_weight.
  destruct (m !! a) as [inner|]; simpl; [|done]. by intros ->.
Qed.

(** C8: on an unlocked store holding both nodes and with no entry for the
    pair in either index, [DeleteEdge] returns nil and leaves the store
    exactly as it was. *)
Theorem DeleteEdge_absent_edge g id pid :
  unlocked g → has_node g id → has_node g pid →
  weight_in (nodeSources g) id pid = None →
  weight_in (nodeTargets g) pid id = None →
  returns (DeleteEdge id pid) g None g.
Proof.
  intros Hu [? Hid]%has_node_lookup [? Hpid]%has_node_lookup Hs Ht.
  unfold returns. rewrite DeleteEdge_run, Hid, Hpid by done.
  rewrite !del_weight_absent, graph_eta by done. eauto.
Qed.

(** A run that returns tells its result. *)
Ltac use_return H :=
  let t := fresh "t" in
  destruct H as [t H];
  first
    [ rewrite AddEdge_run in H by done
    | rewrite ReplaceEdge_run in H by done
    | rewrite DeleteEdge_run in H by done
    | rewrite DeleteNode_run in H by done
    | rewrite AddNode_run in H by done
    | rewrite GetWeight_run in H by done
    | rewrite GetSources_run in H by done
    | rewrite GetTargets_run in H by done
    | rewrite GetNodes_run in H by done ];
  repeat match type of H with
         | context [ nodeList ?g !! ?k ] =>
             let E := fresh "E" in destruct (nodeList g !! k) eqn:E
         end;
  simplify_eq/=.

Lemma returns_unlocked_AddEdge g id pid wgt r g' :
  returns (AddEdge id pid wgt) g r g' → unlocked g.
Proof. intros [t E]. by apply Lock_first in E. Qed.

Lemma returns_unlocked_ReplaceEdge g id pid wgt r g' :
  returns (ReplaceEdge id pid wgt) g r g' → unlocked g.
Proof. intros [t E]. by apply Lock_first in E. Qed.

Lemma returns_unlocked_DeleteEdge g id pid r g' :
  returns (DeleteEdge id pid) g r g' → unlocked g.
Proof. intros [t E]. by apply Lock_first in E. Qed.

Lemma returns_unlocked_DeleteNode g id r g' :
  returns (DeleteNode id) g r g' → unlocked g.
Proof. intros [t E]. by apply Lock_first in E. Qed.

Lemma returns_readable_GetSources g id r g' :
  returns (GetSources id) g r g' → writer (mu g) = false.
Proof. intros [t E]. by apply RLock_first in E. Qed.

Lemma returns_readable_GetTargets g pid r g' :
  returns (GetTargets pid) g r g' → writer (mu g) = false.
Proof. intros [t E]. by apply RLock_first in E. Qed.

(** C6: when no writer holds the lock, [GetWeight id pid] fails naming
    [id] if [id] is not a node, else naming [pid] if [pid] is not a node;
    it fails with the no-edge error exactly when both are nodes and the
    sources index has no entry for the pair; otherwise it returns the
    entry and no error.  No error returned by [AddEdge], [ReplaceEdge],
    [DeleteEdge], [GetSources] or [GetTargets] is a no-edge error. *)
Theorem GetWeight_failures g id pid :
  (writer (mu g) = false →
   (¬ has_node g id →
      ∃ e, returns (GetWeight id pid) g (0%float, Some e) g ∧ NodeNotFound e id) ∧
   (has_node g id → ¬ has_node g pid →
      ∃ e, returns (GetWeight id pid) g (0%float, Some e) g ∧ NodeNotFound e pid) ∧
   ((∃ v e, returns (GetWeight id pid) g (v, Some e) g ∧ EdgeNotFound e) ↔
      has_node g id ∧ has_node g pid ∧ weight_in (nodeSources g) id pid = None) ∧
   (∀ w, has_node g id → has_node g pid →
      weight_in (nodeSources g) id pid = Some w →
      returns (GetWeight id pid) g (w, None) g)) ∧
  (∀ wgt e g',
     returns (AddEdge id pid wgt) g (Some e) g' ∨
     returns (ReplaceEdge id pid wgt) g (Some e) g' ∨
     returns (DeleteEdge id pid) g (Some e) g' ∨
     (∃ m, returns (GetSources id) g (m, Some e) g') ∨
     (∃ m, returns (GetTargets id) g (m, Some e) g') →
     ¬ EdgeNotFound e).
Proof.
  split.
  - intros Hr. unfold returns. rewrite GetWeight_run by done.
    split; [|split; [|split]].
    + intros ->%not_has_node_lookup. by eexists; split; [eexists|].
    + intros [? ->]%has_node_lookup ->%not_has_node_lookup.
      by eexists; split; [eexists|].
    + unfold has_node. split.
      * intros (v & e & [t E] & p & i & ->).
        destruct (nodeList g !! id), (nodeList g !! pid),
          (weight_in (nodeSources g) id pid); naive_solver.
      * intros ([? ->] & [? ->] & ->).
        exists 0%float, (ErrNoEdge pid id). split; [by eexists|by eexists _, _].
    + intros w [? ->]%has_node_lookup [? ->]%has_node_lookup ->. by eexists.
  - intros wgt e g' H (p & i & ->).
    destruct H as [H|[H|[H|[[m H]|[m H]]]]].
    + pose proof (returns_unlocked_AddEdge _ _ _ _ _ _ H). use_return H.
    + pose proof (returns_unlocked_ReplaceEdge _ _ _ _ _ _ H). use_return H.
    + pose proof (returns_unlocked_DeleteEdge _ _ _ _ _ H). use_return H.
    + pose proof (returns_readable_GetSources _ _ _ _ H). use_return H.
    + pose proof (returns_readable_GetTargets _ _ _ _ H). use_return H.
Qed.

Lemma lookup_neighbours (nl : gmap ID N) (m : gmap ID float) k :
  neighbours nl m !! k = (λ _, nl !! k) <$> m !! k.
Proof.
  unfold neighbours. revert k.
  apply (map_fold_weak_ind
    (λ (r : gmap ID (option N)) (m : gmap ID float),
       ∀ k, r !! k = (λ _, nl !! k) <$> m !! k)).
  - intros k. by rewrite !lookup_empty.
  - intros i x m' r _ IH k. destruct (decide (i = k)) as [->|].
    + by rewrite !lookup_insert_eq.
    + by rewrite !lookup_insert_ne.
Qed.

(** C1, as the code has it: after [AddEdge u v w] returns nil, the result
    of [GetSources u] has the key [v] and the result of [GetTargets v] has
    the key [u]; the first argument of [AddEdge] is the node the edge
    points to and the second the node it comes from. *)
Theorem AddEdge_links g u v w g' :
  returns (AddEdge u v w) g None g' →
  ∃ ms mt,
    returns (GetSources u) g' (Some ms, None) g' ∧ is_Some (ms !! v) ∧
    returns (GetTargets v) g' (Some mt, None) g' ∧ is_Some (mt !! u).
Proof.
  intros H. pose proof (returns_unlocked_AddEdge _ _ _ _ _ _ H) as Hu.
  pose proof (unlocked_readable _ Hu) as Hr. use_return H.
  unfold returns. rewrite GetSources_run, GetTargets_run by done. simpl.
  rewrite E, E0. eexists _, _.
  split; [by eexists|]. split; [|split; [by eexists|]].
  - rewrite lookup_neighbours.
    pose proof (weight_in_add_weight (nodeSources g) u v w u v) as Hw.
    rewrite decide_True in Hw by done. unfold weight_in in Hw.
    destruct (add_weight (nodeSources g) u v w !! u) as [inner|]; [|done].
    simpl in *. rewrite Hw. by eexists.
  - rewrite lookup_neighbours.
    pose proof (weight_in_add_weight (nodeTargets g) v u w v u) as Hw.
    rewrite decide_True in Hw by done. unfold weight_in in Hw.
    destruct (add_weight (nodeTargets g) v u w !! v) as [inner|]; [|done].
    simpl in *. rewrite Hw. by eexists.
Qed.

(** C10: an [AddEdge], [ReplaceEdge] or [DeleteEdge] on the pair
    [(id, pid)] that returns nil leaves the node map as it was, and for
    every other pair [(a, b)] leaves its entry, or its absence, in the
    sources index (at [a], [b]) and in the targets index (at [b], [a]). *)
Theorem edge_methods_frame g id pid wgt g' :
  returns (AddEdge id pid wgt) g None g' ∨
  returns (ReplaceEdge id pid wgt) g None g' ∨
  returns (DeleteEdge id pid) g None g' →
  nodeList g' = nodeList g ∧
  ∀ a b, (a, b) ≠ (id, pid) →
    weight_in (nodeSources g') a b = weight_in (nodeSources g) a b ∧
    weight_in (nodeTargets g') b a = weight_in (nodeTargets g) b a.
Proof.
  intros [H|[H|H]].
  - pose proof (returns_unlocked_AddEdge _ _ _ _ _ _ H). use_return H.
    split; [done|]. intros a b Hab.
    rewrite !weight_in_add_weight, !decide_False by naive_solver. done.
  - pose proof (returns_unlocked_ReplaceEdge _ _ _ _ _ _ H). use_return H.
    split; [done|]. intros a b Hab.
    rewrite !weight_in_set_weight, !decide_False by naive_solver. done.
  - pose proof (returns_unlocked_DeleteEdge _ _ _ _ _ H). use_return H.
    split; [done|]. intros a b Hab.
    rewrite !weight_in_del_weight, !decide_False by naive_solver. done.
Qed.

Lemma AddEdge_loop g id pid wgts errs :
  unlocked g → has_node g id → has_node g pid →
  ∃ g' t,
    foldM (λ errs wgt, err <- AddEdge id pid wgt ;; ret (errs ++ [err])) wgts errs g
      = Some (errs ++ replicate (length wgts) None, g', t) ∧
    unlocked g' ∧ nodeList g' = nodeList g ∧
    weight_in (nodeSources g') id pid =
      fold_left (λ o w, Some match o with Some x => (x + w)%float | None => w end)
        wgts (weight_in (nodeSources g) id pid).
Proof.
  revert g errs. induction wgts as [|w wgts IH]; intros g errs Hu Hid Hpid; simpl.
  - rewrite app_nil_r. unfold ret. eauto 10.
  - destruct (has_node_lookup _ _ Hid) as [n1 E1].
    destruct (has_node_lookup _ _ Hpid) as [n2 E2].
    set (g1 := mk_graph (mu g) (nodeList g)
                 (add_weight (nodeSources g) id pid w)
                 (add_weight (nodeTargets g) pid id w)).
    destruct (IH g1 (errs ++ [None])) as (g' & t & E & Hu' & Hn & Hw); [done..|].
    exists g'. eexists. unfold bind at 1 2. rewrite AddEdge_run, E1, E2 by done.
    unfold ret at 1. fold g1. rewrite E. split.
    + by rewrite <-app_assoc.
    + do 2 (split; [done|]). rewrite Hw. simpl.
      by rewrite weight_in_add_weight, decide_True.
Qed.

Lemma fold_left_accumulate (ws : list float) (x : float) :
  fold_left (λ o w, Some match o with Some x => (x + w)%float | None => w end)
    ws (Some x) = Some (fold_left PrimFloat.add ws x).
Proof. revert x. induction ws as [|w ws IH]; intros x; simpl; [done|apply IH]. Qed.

(** C2: on an unlocked store holding [u] and [v] (possibly the same node)
    with no entry for the pair in the sources index, [k >= 1] calls
    [AddEdge u v w1], ..., [AddEdge u v wk] in a row all return nil, after
    which [GetWeight u v] returns the float64 sum [w1 + ... + wk] taken from
    left to right; a [ReplaceEdge u v w] after that returns nil and then
    [GetWeight u v] returns [w]. *)
Theorem AddEdge_sums_ReplaceEdge_overwrites g u v w1 ws :
  unlocked g → has_node g u → has_node g v →
  weight_in (nodeSources g) u v = None →
  ∃ g',
    returns (AddEdge_each u v (w1 :: ws)) g (replicate (S (length ws)) None) g' ∧
    returns (GetWeight u v) g' (fold_left PrimFloat.add ws w1, None) g' ∧
    ∀ w, ∃ g'',
      returns (ReplaceEdge u v w) g' None g'' ∧
      returns (GetWeight u v) g'' (w, None) g''.
Proof.
  intros Hu Hid Hpid Hw.
  destruct (AddEdge_loop g u v (w1 :: ws) [] Hu Hid Hpid)
    as (g' & t & E & Hu' & Hn & Hw').
  rewrite Hw in Hw'. simpl in Hw'. rewrite fold_left_accumulate in Hw'.
  destruct (has_node_lookup _ _ Hid) as [n1 E1].
  destruct (has_node_lookup _ _ Hpid) as [n2 E2].
  pose proof (unlocked_readable _ Hu') as Hr.
  exists g'. split; [by exists t|]. unfold returns.
  rewrite GetWeight_run, Hn, E1, E2, Hw' by done.
  split; [by eexists|]. intros w.
  rewrite ReplaceEdge_run, Hn, E1, E2 by done.
  eexists. split; [by eexists|].
  rewrite GetWeight_run by done. simpl. rewrite E1, E2.
  rewrite weight_in_set_weight, decide_True by done. by eexists.
Qed.

(** ** Invariants of the reachable stores *)

(** C3: in every store reached from [NewGraph] by public calls, the targets
    index holds [w] at [(a, b)] exactly when the sources index holds [w] at
    [(b, a)]. *)
Theorem indices_mirror g :
  reachable g →
  ∀ a b w,
    weight_in (nodeTargets g) a b = Some w ↔ weight_in (nodeSources g) b a = Some w.
Proof.
  intros (_ & Hm & _)%reachable_consistent a b w. by rewrite Hm.
Qed.

(** C4: in every store reached from [NewGraph] by public calls, each
    identity that occurs as an outer or inner key of either index is a key
    of the node map; and when [DeleteNode id] returns true on such a store,
    [GetNodes] no longer has [id], no result of [GetSources] or
    [GetTargets] has the key [id], and [GetWeight] with [id] as either
    argument fails with a node-not-found error. *)
Theorem index_keys_are_nodes g :
  reachable g →
  (∀ a, occurs_in (nodeSources g) a ∨ occurs_in (nodeTargets g) a → has_node g a) ∧
  ∀ id g', returns (DeleteNode id) g true g' →
    (∃ m, returns GetNodes g' m g' ∧ m !! id = None) ∧
    (∀ x m e g'', returns (GetSources x) g' (Some m, e) g'' → m !! id = None) ∧
    (∀ x m e g'', returns (GetTargets x) g' (Some m, e) g'' → m !! id = None) ∧
    (∀ x, ∃ e i, returns (GetWeight id x) g' (0%float, Some e) g' ∧ NodeNotFound e i) ∧
    (∀ x, ∃ e i, returns (GetWeight x id) g' (0%float, Some e) g' ∧ NodeNotFound e i).
Proof.
  intros (Hu & _ & Hk)%reachable_consistent. split; [done|].
  intros id g' H. use_return H.
  set (g' := mk_graph _ _ _ _).
  assert (writer (mu g') = false) as Hr by by apply unlocked_readable.
  assert (nodeList g' !! id = None) as Hid by apply lookup_delete_eq.
  split; [|split; [|split; [|split]]].
  - exists (nodeList g'). unfold returns. rewrite GetNodes_run by done.
    split; [by eexists|done].
  - intros x m e g'' Hx. use_return Hx. rewrite lookup_neighbours, lookup_fmap.
    destruct (delete id (nodeSources g) !! x) as [inner|]; simpl;
      by rewrite ?lookup_delete_eq, ?lookup_empty.
  - intros x m e g'' Hx. use_return Hx. rewrite lookup_neighbours, lookup_fmap.
    destruct (delete id (nodeTargets g) !! x) as [inner|]; simpl;
      by rewrite ?lookup_delete_eq, ?lookup_empty.
  - intros x. unfold returns. rewrite GetWeight_run, Hid by done.
    by eexists _, id; split; [eexists|].
  - intros x. unfold returns. rewrite GetWeight_run, Hid by done.
    destruct (nodeList g' !! x).
    + by eexists _, id; split; [eexists|].
    + by eexists _, x; split; [eexists|].
Qed.

(** ** Lock discipline *)

(** The five methods that take the write lock hold it from their first
    event to their last and store only in between. *)
Lemma mutators_hold_lock g nd id pid wgt :
  unlocked g →
  locked_throughout (events (AddNode nd) g) = true ∧
  locked_throughout (events (DeleteNode id) g) = true ∧
  locked_throughout (events (AddEdge id pid wgt) g) = true ∧
  locked_throughout (events (ReplaceEdge id pid wgt) g) = true ∧
  locked_throughout (events (DeleteEdge id pid) g) = true.
Proof.
  intros Hu. unfold events.
  rewrite AddNode_run, DeleteNode_run, AddEdge_run, ReplaceEdge_run,
    DeleteEdge_run by done.
  destruct (nodeList g !! GetId nd), (nodeList g !! id), (nodeList g !! pid),
    (weight_in (nodeTargets g) pid id), (weight_in (nodeSources g) id pid);
    done.
Qed.

(** C9 fails at [Init]: its run consists of the three stores alone, with
    no lock event, so it does not hold the write lock; and on a store whose
    write lock is held, where [AddNode] waits, [Init] returns with the
    three maps replaced. *)
Theorem Init_takes_no_lock g :
  events Init g = [EvStore FnodeList; EvStore FnodeSources; EvStore FnodeTargets] ∧
  locked_throughout (events Init g) = false ∧
  stores_under_lock false (events Init g) = false ∧
  let held := mk_graph (mk_mu true 0) (nodeList g) (nodeSources g) (nodeTargets g) in
  (∀ nd, AddNode nd held = None) ∧
  returns Init held tt (mk_graph (mk_mu true 0) ∅ ∅ ∅).
Proof.
  repeat split. by eexists.
Qed.

End claims.

(** ** Serialization *)

Lemma JSON_rs_ext {N} (g : graph N) nodes (f f' : ID → list ID) :
  (∀ id, id ∈ nodes → f id = f' id) →
  JSON_rs g nodes f = JSON_rs g nodes f'.
Proof.
  unfold JSON_rs. generalize (∅ : gmap string (gmap string float)).
  induction nodes as [|id nodes IH]; intros rs Hf; simpl; [done|].
  rewrite IH by (intros; apply Hf; by right).
  unfold JSON_outer. by rewrite (Hf id) by left.
Qed.

Lemma Permutation_two {A} (x y : A) l :
  l ≡ₚ [x; y] → l = [x; y] ∨ l = [y; x].
Proof. intros H. symmetry in H. by apply Permutation_length_2_inv in H. Qed.

(** C5 fails on the store of the test after its three [AddEdge] calls, in
    which [node1] has the two entries [node2] and [node3]: whatever orders
    the two range loops take, [rs] has under ["node1"] one of the two
    neighbours and ["node1"] itself, although neither index has an entry
    for the pair [(node1, node1)]. *)
Theorem JSON_keys_second_entry_by_outer_node order1 order2 :
  (∀ l, order1 l ≡ₚ l) → (∀ id l, order2 id l ≡ₚ l) →
  ∃ rs, returns (JSON order1 order2) store_edges rs store_edges ∧
    (rs = {[ "node1" := {[ "node2" := 13%float; "node1" := 10%float ]} ]} ∨
     rs = {[ "node1" := {[ "node3" := 10%float; "node1" := 13%float ]} ]}) ∧
    rs ≠ {[ "node1" := {[ "node2" := 13%float; "node3" := 10%float ]} ]} ∧
    weight_in (nodeSources store_edges) node1 node1 = None ∧
    weight_in (nodeTargets store_edges) node1 node1 = None.
Proof.
  intros H1 H2.
  destruct (JSON_run store_edges order1 order2 eq_refl) as [t Ht].
  eexists. split; [by exists t|]. clear t Ht.
  set (f := λ id, order2 id _).
  assert (keys (nodeList store_edges) = ["node3"; "node1"; "node2"]) as ->
    by (vm_compute; reflexivity).
  assert (f "node1" = ["node3"; "node2"] ∨ f "node1" = ["node2"; "node3"]) as Hf1.
  { apply Permutation_two. unfold f. etrans; [apply H2|].
    by vm_compute. }
  assert (f "node2" = []) as Hf2.
  { apply Permutation_nil_r. unfold f. etrans; [apply H2|]. by vm_compute. }
  assert (f "node3" = []) as Hf3.
  { apply Permutation_nil_r. unfold f. etrans; [apply H2|]. by vm_compute. }
  assert (∃ l2, (l2 = ["node3"; "node2"] ∨ l2 = ["node2"; "node3"]) ∧
            ∀ id, id ∈ ["node3"; "node1"; "node2"] →
              f id = if decide (id = "node1") then l2 else []) as (l2 & Hl2 & Hf).
  { exists (f "node1"). split; [done|]. intros id Hid.
    repeat (apply elem_of_cons in Hid as [->|Hid]); [done..|].
    by apply elem_of_nil in Hid. }
  clearbody f. clear Hf1 Hf2 Hf3.
  remember (order1 ["node3"; "node1"; "node2"]) as l1 eqn:El1.
  assert (l1 ∈ permutations ["node3"; "node1"; "node2"]) as Hl1.
  { apply permutations_Permutation. subst l1. by rewrite H1. }
  assert (∀ id, id ∈ l1 → f id = if decide (id = "node1") then l2 else [])
    as Hf'.
  { intros id Hid. apply Hf. subst l1. by rewrite H1 in Hid. }
  rewrite (JSON_rs_ext _ _ _ _ Hf'). clear El1 Hf Hf' H1 H2 f order1 order2.
  assert (∀ rs : gmap string (gmap string float),
            weight_in rs "node1" "node1" ≠ None →
            rs ≠ {[ "node1" := {[ "node2" := 13%float; "node3" := 10%float ]} ]})
    as Hself by (by intros rs Hrs ->).
  vm_compute in Hl1.
  repeat (apply elem_of_cons in Hl1 as [->|Hl1]);
    try (by apply elem_of_nil in Hl1);
    destruct Hl2 as [-> | ->];
    (split;
     [first [left; vm_compute; reflexivity|right; vm_compute; reflexivity]
     |split; [apply Hself; vm_compute; discriminate|split; reflexivity]]).
Qed.

(** ** Runs of the test file *)

(** The calls of [TestNewGraph] up to [GetWeight]: the second [AddNode] of
    [node1] changes nothing, the count is 3 and the weight is 12 + 1. *)
Example TestNewGraph_run :
  perform_all (test_nodes ++ test_edges) NewGraph ≫= (λ r, GetNodeCount r.1.2)
    = Some (3%Z, store_edges, [EvRLock; EvRUnlock]) ∧
  GetWeight node1 node2 store_edges
    = Some ((13%float, None), store_edges, [EvRLock; EvRUnlock]) ∧
  GetSources node1 store_edges
    = Some ((Some {[node2 := Some (NewNode node2); node3 := Some (NewNode node3)]},
             None), store_edges, [EvRLock; EvRUnlock]) ∧
  GetTargets node2 store_edges
    = Some ((Some {[node1 := Some (NewNode node1)]}, None), store_edges,
            [EvRLock; EvRUnlock]).
Proof. repeat split; vm_compute; reflexivity. Qed.

Lemma AddNode_rejects_or_inserts_witness :
  unlocked store_nodes ∧
  returns (AddNode (NewNode node1)) store_nodes false store_nodes.
Proof.
  split; [reflexivity|].
  apply (AddNode_rejects_or_inserts store_nodes (NewNode node1)); [reflexivity|].
  by exists (NewNode node1).
Defined.

Lemma DeleteEdge_absent_edge_witness :
  unlocked store_nodes ∧
  returns (DeleteEdge node1 node3) store_nodes None store_nodes.
Proof.
  split; [reflexivity|].
  apply (DeleteEdge_absent_edge store_nodes node1 node3);
    [reflexivity|by exists (NewNode node1)|by exists (NewNode node3)
    |reflexivity|reflexivity].
Defined.



Lemma store_first_edge_returned :
  returns (AddEdge node1 node2 12) store_nodes None store_first_edge.
Proof. eexists. vm_compute. reflexivity. Defined.

Lemma store_edges_reachable : reachable store_edges.
Proof.
  exists (test_nodes ++ test_edges). eexists.
  split; [repeat constructor|vm_compute; reflexivity].
Defined.

(** C1 as the spec words it, with the first argument of [AddEdge] as the
    source: after the first [AddEdge(id, pid, 12.0)] of the test, the result
    of [GetTargets(id)] is empty, so it does not have the key [pid]. *)
Lemma AddEdge_first_argument_as_source_counterexample :
  ¬ ∀ (g g' : graph node) u v w,
      has_node g u → has_node g v → returns (AddEdge u v w) g None g' →
      ∃ mt ms,
        returns (GetTargets u) g' (Some mt, None) g' ∧ is_Some (mt !! v) ∧
        returns (GetSources v) g' (Some ms, None) g' ∧ is_Some (ms !! u).
Proof.
  intros H.
  destruct (H store_nodes store_first_edge node1 node2 12%float)
    as (mt & ms & [t Ht] & [x Hv] & _).
  - by exists (NewNode node1).
  - by exists (NewNode node2).
  - exact store_first_edge_returned.
  - vm_compute in Ht. injection Ht as <- _. vm_compute in Hv. discriminate.
Qed.

Lemma AddEdge_links_witness :
  returns (AddEdge node1 node2 12) store_nodes None store_first_edge ∧
  ∃ ms mt,
    returns (GetSources node1) store_first_edge (Some ms, None) store_first_edge ∧
    is_Some (ms !! node2) ∧
    returns (GetTargets node2) store_first_edge (Some mt, None) store_first_edge ∧
    is_Some (mt !! node1).
Proof.
  split; [exact store_first_edge_returned|].
  exact (AddEdge_links store_nodes node1 node2 12%float store_first_edge
           store_first_edge_returned).
Defined.

Lemma AddEdge_sums_ReplaceEdge_overwrites_witness :
  unlocked store_nodes ∧ has_node store_nodes node1 ∧ has_node store_nodes node2 ∧
  weight_in (nodeSources store_nodes) node1 node2 = None ∧
  ∃ g',
    returns (AddEdge_each node1 node2 [12%float; 1%float]) store_nodes [None; None] g' ∧
    returns (GetWeight node1 node2) g' (13%float, None) g' ∧
    ∀ w, ∃ g'',
      returns (ReplaceEdge node1 node2 w) g' None g'' ∧
      returns (GetWeight node1 node2) g'' (w, None) g''.
Proof.
  assert (has_node store_nodes node1) as H1 by (by exists (NewNode node1)).
  assert (has_node store_nodes node2) as H2 by (by exists (NewNode node2)).
  do 4 (split; [done|]).
  exact (AddEdge_sums_ReplaceEdge_overwrites store_nodes node1 node2
           12%float [1%float] eq_refl H1 H2 eq_refl).
Defined.

Lemma indices_mirror_witness :
  reachable store_edges ∧
  (weight_in (nodeTargets store_edges) node2 node1 = Some 13%float ↔
   weight_in (nodeSources store_edges) node1 node2 = Some 13%float).
Proof.
  split; [exact store_edges_reachable|].
  exact (indices_mirror store_edges store_edges_reachable node2 node1 13%float).
Defined.

Lemma index_keys_are_nodes_witness :
  reachable store_edges ∧
  ∀ a, occurs_in (nodeSources store_edges) a ∨ occurs_in (nodeTargets store_edges) a →
       has_node store_edges a.
Proof.
  split; [exact store_edges_reachable|].
  exact (proj1 (index_keys_are_nodes store_edges store_edges_reachable)).
Defined.

Lemma GetWeight_failures_witness :
  writer (mu store_edges) = false ∧
  returns (GetWeight node1 node2) store_edges (13%float, None) store_edges.
Proof.
  split; [reflexivity|].
  destruct (GetWeight_failures store_edges node1 node2) as [H _].
  destruct (H eq_refl) as (_ & _ & _ & Hw).
  apply Hw; [by exists (NewNode node1)|by exists (NewNode node2)|reflexivity].
Defined.

Lemma edge_methods_frame_witness :
  returns (AddEdge node1 node2 12) store_nodes None store_first_edge ∧
  nodeList store_first_edge = nodeList store_nodes.
Proof.
  split; [exact store_first_edge_returned|].
  exact (proj1 (edge_methods_frame store_nodes node1 node2 12%float store_first_edge
                  (or_introl store_first_edge_returned))).
Defined.

Lemma JSON_keys_second_entry_by_outer_node_witness :
  (∀ l : list ID, l ≡ₚ l) ∧ (∀ (i : ID) (l : list ID), l ≡ₚ l) ∧
  ∃ rs, returns (JSON (λ l, l) (λ _ l, l)) store_edges rs store_edges ∧
    weight_in rs "node1" "node1" = Some 13%float.
Proof.
  split; [reflexivity|]. split; [reflexivity|].
  destruct (JSON_keys_second_entry_by_outer_node (λ l, l) (λ _ l, l))
    as (rs & Hrs & _); [reflexivity..|].
  exists rs. split; [done|].
  destruct Hrs as [t Hrs]. vm_compute in Hrs. simplify_eq.
  vm_compute. reflexivity.
Defined.

(** * Further behaviour of the methods *)

(** From a run that returned to its result, by the run lemma of the method. *)
Ltac returned H :=
  let t := fresh "t" in
  destruct H as [t H];
  first
    [ rewrite AddEdge_run in H by done
    | rewrite ReplaceEdge_run in H by done
    | rewrite DeleteEdge_run in H by done
    | rewrite DeleteNode_run in H by done
    | rewrite AddNode_run in H by done
    | rewrite GetWeight_run in H by done
    | rewrite GetSources_run in H by done
    | rewrite GetTargets_run in H by done
    | rewrite GetNode_run in H by done
    | rewrite GetNodes_run in H by done ];
  repeat match type of H with
         | context [ nodeList ?g !! ?k ] =>
             let E := fresh "E" in destruct (nodeList g !! k) eqn:E
         end;
  simplify_eq/=.

(** ** Reset and the node map *)

Section nodes.
Context {N : Type} `{!Node N}.
Implicit Types (g : graph N) (id pid : ID) (nd : N) (wgt : float).

Lemma JSON_rs_no_nodes g nodes srcs :
  nodeList g = ∅ → JSON_rs g nodes srcs = ∅.
Proof.
  intros Hn. unfold JSON_rs. generalize (∅ : gmap string (gmap string float)).
  induction nodes as [|k nodes IH]; intros rs; simpl; [done|].
  unfold JSON_outer at 2. rewrite Hn, lookup_empty. apply IH.
Qed.

(** X1: when no writer holds the lock, [Init] returns and leaves a store
    in which the count is 0, [GetNode] is nil for every identity,
    [GetWeight] and [GetSources] fail naming their first argument, [JSON]
    builds the empty map whatever the range orders, and a second [Init]
    changes nothing. *)
Theorem Init_empties g :
  writer (mu g) = false →
  ∃ g0, returns Init g tt g0 ∧
    returns GetNodeCount g0 0%Z g0 ∧
    (∀ id, returns (GetNode id) g0 None g0) ∧
    (∀ id pid, returns (GetWeight id pid) g0 (0%float, Some (ErrNotExist id)) g0) ∧
    (∀ id, returns (GetSources id) g0 (None, Some (ErrNotExist id)) g0) ∧
    (∀ order1 order2, returns (JSON order1 order2) g0 ∅ g0) ∧
    returns Init g0 tt g0.
Proof.
  intros Hr. exists (mk_graph (mu g) ∅ ∅ ∅). unfold returns.
  rewrite !Init_run. split; [by eexists|].
  rewrite GetNodeCount_run by done. split; [by eexists|].
  split; [|split; [|split; [|split]]].
  - intros id. rewrite GetNode_run by done. by eexists.
  - intros id pid. rewrite GetWeight_run by done. by eexists.
  - intros id. rewrite GetSources_run by done. by eexists.
  - intros order1 order2.
    destruct (JSON_run (mk_graph (mu g) (∅ : gmap ID N) ∅ ∅) order1 order2 Hr)
      as [t Ht].
    rewrite JSON_rs_no_nodes in Ht by done. by exists t.
  - by eexists.
Qed.

(** X2: after [AddNode nd] has returned, [GetNode] of [nd]'s identity is
    never nil: it is [nd] when the call returned true and the node that was
    there before when it returned false; every other identity has the node
    it had, and both indices are as they were. *)
Theorem AddNode_then_GetNode g nd ok g' :
  returns (AddNode nd) g ok g' →
  (∃ n, returns (GetNode (GetId nd)) g' (Some n) g' ∧
     (ok = true → n = nd ∧ ¬ has_node g (GetId nd)) ∧
     (ok = false → nodeList g !! GetId nd = Some n)) ∧
  (∀ id, id ≠ GetId nd → nodeList g' !! id = nodeList g !! id) ∧
  nodeSources g' = nodeSources g ∧ nodeTargets g' = nodeTargets g.
Proof.
  intros H. assert (unlocked g) as Hu by (destruct H as [t E]; by apply Lock_first in E).
  pose proof (unlocked_readable _ Hu) as Hr. returned H.
  - split; [|done]. exists n. unfold returns. rewrite GetNode_run, E by done.
    split; [by eexists|done].
  - split; [|split; [|done]].
    + exists nd. unfold returns. rewrite GetNode_run by done. simpl.
      rewrite lookup_insert_eq. split; [by eexists|]. split; [|done].
      intros _. split; [done|]. unfold has_node. rewrite E. by intros [? ?].
    + intros id Hid. by rewrite lookup_insert_ne.
Qed.

(** X3: on an unlocked store, [DeleteNode] of an identity that is not a
    node returns false and changes nothing; of a node it returns true, the
    count drops by one, the identity is no longer a node and every other
    identity has the node it had. *)
Theorem DeleteNode_removes_one g id :
  unlocked g →
  (¬ has_node g id → returns (DeleteNode id) g false g) ∧
  (has_node g id →
     ∃ g' n, returns (DeleteNode id) g true g' ∧
       returns GetNodeCount g (n + 1)%Z g ∧ returns GetNodeCount g' n g' ∧
       returns (GetNode id) g' None g' ∧
       ∀ k, k ≠ id → nodeList g' !! k = nodeList g !! k).
Proof.
  intros Hu. pose proof (unlocked_readable _ Hu) as Hr.
  unfold returns. rewrite DeleteNode_run by done. split.
  - intros ->%not_has_node_lookup. by eexists.
  - intros [n E]. rewrite E. eexists _, _. split; [by eexists|].
    rewrite !GetNodeCount_run, GetNode_run by done. simpl.
    rewrite lookup_delete_eq. split; [|split; [by eexists|split; [by eexists|]]].
    + eexists. do 3 f_equal.
      rewrite <-(insert_delete_id (nodeList g) id n) at 1 by done.
      rewrite map_size_insert_None by apply lookup_delete_eq.
      by rewrite Nat2Z.inj_succ.
    + intros k Hk. by rewrite lookup_delete_ne.
Qed.

(** X4: [DeleteNode id] that returns true removes from each index exactly
    the entries that have [id] as outer or as inner key and keeps every
    other entry with its weight. *)
Theorem DeleteNode_cascades g id g' :
  returns (DeleteNode id) g true g' →
  ∀ a b,
    weight_in (nodeSources g') a b =
      (if decide (a = id ∨ b = id) then None else weight_in (nodeSources g) a b) ∧
    weight_in (nodeTargets g') a b =
      (if decide (a = id ∨ b = id) then None else weight_in (nodeTargets g) a b).
Proof.
  intros H. assert (unlocked g) as Hu by (destruct H as [t E]; by apply Lock_first in E).
  returned H. intros a b. by rewrite !weight_in_purge.
Qed.

(** X5: on an unlocked store, [AddEdge], [ReplaceEdge] and [DeleteEdge]
    fail naming [id] when [id] is not a node, and naming [pid] when [id] is
    a node and [pid] is not; in both cases the store is left as it was. *)
Theorem edge_methods_need_both_nodes g id pid wgt :
  unlocked g →
  (¬ has_node g id →
     returns (AddEdge id pid wgt) g (Some (ErrNotExist id)) g ∧
     returns (ReplaceEdge id pid wgt) g (Some (ErrNotExist id)) g ∧
     returns (DeleteEdge id pid) g (Some (ErrNotExist id)) g) ∧
  (has_node g id → ¬ has_node g pid →
     returns (AddEdge id pid wgt) g (Some (ErrNotExist pid)) g ∧
     returns (ReplaceEdge id pid wgt) g (Some (ErrNotExist pid)) g ∧
     returns (DeleteEdge id pid) g (Some (ErrNotExist pid)) g).
Proof.
  intros Hu. unfold returns.
  rewrite AddEdge_run, ReplaceEdge_run, DeleteEdge_run by done. split.
  - intros ->%not_has_node_lookup. repeat split; by eexists.
  - intros [n ->] ->%not_has_node_lookup. repeat split; by eexists.
Qed.

End nodes.

(** ** Counting and undoing *)

Section counting.
Context {N : Type} `{!Node N}.
Implicit Types (g : graph N) (id pid : ID) (nd : N) (wgt : float).

Lemma AddNode_loop g nds oks :
  unlocked g →
  ∃ g' oks' t,
    foldM (λ oks nd, ok <- AddNode nd ;; ret (oks ++ [ok])) nds oks g
      = Some (oks ++ oks', g', t) ∧
    unlocked g' ∧ length oks' = length nds ∧
    dom (nodeList g') = dom (nodeList g) ∪ list_to_set (GetId <$> nds) ∧
    size (nodeList g') = size (nodeList g) + length (filter (λ ok, ok = true) oks') ∧
    nodeSources g' = nodeSources g ∧ nodeTargets g' = nodeTargets g.
Proof.
  revert g oks. induction nds as [|nd nds IH]; intros g oks Hu; simpl.
  - exists g, [], []. rewrite app_nil_r. unfold ret.
    repeat split; try done; try set_solver; simpl; lia.
  - unfold bind at 1 2. rewrite AddNode_run by done.
    destruct (nodeList g !! GetId nd) as [n|] eqn:E; unfold ret at 1.
    + destruct (IH g (oks ++ [false]) Hu) as (g' & oks' & t & E' & ? & ? & Hd & Hs & ? & ?).
      rewrite E'. exists g', (false :: oks'). eexists.
      split; [by rewrite <-app_assoc|]. split; [done|]. split; [simpl; lia|].
      split; [|by rewrite filter_cons_False by done].
      rewrite Hd. apply elem_of_dom_2 in E. set_solver.
    + set (g1 := mk_graph (mu g) (<[GetId nd := nd]> (nodeList g))
                   (nodeSources g) (nodeTargets g)).
      destruct (IH g1 (oks ++ [true])) as (g' & oks' & t & E' & ? & ? & Hd & Hs & ? & ?);
        [done|].
      rewrite E'. exists g', (true :: oks'). eexists.
      split; [by rewrite <-app_assoc|]. split; [done|]. split; [simpl; lia|].
      split; [|split; [|done]].
      * rewrite Hd. simpl. rewrite dom_insert_L. set_solver.
      * rewrite Hs, filter_cons_True by done. unfold g1. cbn [nodeList length].
        rewrite map_size_insert_None by done. lia.
Qed.

(** X6: [AddNode] for a list of nodes on [NewGraph()] returns each time;
    afterwards the keys of the node map are the identities of the list,
    [GetNodeCount] is the number of distinct identities among them, and as
    many of the calls returned true. *)
Theorem AddNode_counts_distinct (nds : list N) :
  ∃ oks g',
    returns (AddNode_each nds) NewGraph oks g' ∧
    length oks = length nds ∧
    dom (nodeList g') = list_to_set (GetId <$> nds) ∧
    returns GetNodeCount g'
      (Z.of_nat (size (list_to_set (GetId <$> nds) : gset ID))) g' ∧
    length (filter (λ ok, ok = true) oks)
      = size (list_to_set (GetId <$> nds) : gset ID).
Proof.
  destruct (AddNode_loop NewGraph nds [] eq_refl)
    as (g' & oks & t & E & Hu & Hl & Hd & Hs & _ & _).
  simpl in *. rewrite dom_empty_L, union_empty_l_L in Hd.
  rewrite map_size_empty in Hs. simpl in Hs.
  exists oks, g'. split; [by exists t|]. split; [done|]. split; [done|].
  assert (size (nodeList g') = size (list_to_set (GetId <$> nds) : gset ID)) as Hsz
    by (by rewrite <-Hd, size_dom).
  unfold returns. rewrite GetNodeCount_run by by apply unlocked_readable.
  split; [rewrite Hsz; by eexists|]. by rewrite <-Hsz.
Qed.

Lemma purge_absent (m : gmap ID (gmap ID float)) id :
  ¬ occurs_in m id → delete id <$> delete id m = m.
Proof.
  intros Hid. apply map_eq. intros a. rewrite lookup_fmap.
  destruct (decide (a = id)) as [->|Ha].
  - rewrite lookup_delete_eq. simpl. symmetry. apply eq_None_not_Some.
    intros ?. apply Hid. by left.
  - rewrite lookup_delete_ne by done.
    destruct (m !! a) as [inner|] eqn:Ea; simpl; [|done]. f_equal.
    apply delete_id. apply eq_None_not_Some. intros Hb. apply Hid. right.
    exists a. unfold weight_in. by rewrite Ea.
Qed.

(** X7: on a store reached from [NewGraph] by public calls, [AddNode] of a
    node whose identity is new followed by [DeleteNode] of that identity
    gives back the store as it was. *)
Theorem AddNode_DeleteNode_undo g nd :
  reachable g → ¬ has_node g (GetId nd) →
  ∃ g1, returns (AddNode nd) g true g1 ∧ returns (DeleteNode (GetId nd)) g1 true g.
Proof.
  intros (Hu & _ & Hk)%reachable_consistent Hn.
  pose proof (not_has_node_lookup _ _ Hn) as E.
  eexists. unfold returns. rewrite AddNode_run, E by done.
  split; [by eexists|]. rewrite DeleteNode_run by done. simpl.
  rewrite lookup_insert_eq, delete_insert_id by done.
  rewrite !purge_absent by (intros ?; apply Hn, Hk; auto).
  rewrite graph_eta. by eexists.
Qed.

(** X8: no sequence of public calls on [NewGraph()] blocks or dies on the
    mutex: every call returns, and the mutex is free again afterwards. *)
Theorem calls_in_sequence_return (cs : list (call N)) :
  Forall shuffles cs →
  ∃ g, returns (perform_all cs) NewGraph tt g ∧ unlocked g.
Proof.
  intros Hcs.
  destruct (perform_all_consistent cs NewGraph Hcs consistent_NewGraph)
    as (g & t & E & Hu & _).
  exists g. split; [by exists t|done].
Qed.

End counting.

(** ** Edges and neighbours *)

Section edges.
Context {N : Type} `{!Node N}.
Implicit Types (g : graph N) (id pid : ID) (nd : N) (wgt : float).

Lemma lookup_default_inner (m : gmap ID (gmap ID float)) a b :
  default ∅ (m !! a) !! b = weight_in m a b.
Proof. unfold weight_in. by destruct (m !! a). Qed.

(** X9: when no writer holds the lock, [GetSources] and [GetTargets] of
    an identity that is not a node return a nil map and an error naming it;
    of a node they return a map that has a key exactly for each inner key
    of the node's entry in the index, holding what the node map has for
    that key (nil when it has nothing). *)
Theorem neighbour_queries g id :
  writer (mu g) = false →
  (¬ has_node g id →
     returns (GetSources id) g (None, Some (ErrNotExist id)) g ∧
     returns (GetTargets id) g (None, Some (ErrNotExist id)) g) ∧
  (has_node g id →
     ∃ ms mt,
       returns (GetSources id) g (Some ms, None) g ∧
       returns (GetTargets id) g (Some mt, None) g ∧
       ∀ k,
         ms !! k = (λ _, nodeList g !! k) <$> weight_in (nodeSources g) id k ∧
         mt !! k = (λ _, nodeList g !! k) <$> weight_in (nodeTargets g) id k).
Proof.
  intros Hr. unfold returns. rewrite GetSources_run, GetTargets_run by done. split.
  - intros ->%not_has_node_lookup. split; by eexists.
  - intros [n ->]. eexists _, _. split; [by eexists|]. split; [by eexists|].
    intros k. by rewrite !lookup_neighbours, !lookup_default_inner.
Qed.

(** X10: on a store reached from [NewGraph] by public calls, no value in a
    result of [GetSources] or [GetTargets] is nil, each is the node the node
    map has for its key; and [k] is a key of the result of [GetSources id]
    exactly when [id] is a key of the result of [GetTargets k]. *)
Theorem neighbours_are_nodes g id k :
  reachable g →
  (∀ ms e g' v, returns (GetSources id) g (Some ms, e) g' → ms !! k = Some v →
     ∃ n, v = Some n ∧ nodeList g !! k = Some n) ∧
  (∀ mt e g' v, returns (GetTargets id) g (Some mt, e) g' → mt !! k = Some v →
     ∃ n, v = Some n ∧ nodeList g !! k = Some n) ∧
  ((∃ ms e g', returns (GetSources id) g (Some ms, e) g' ∧ is_Some (ms !! k)) ↔
   (∃ mt e g', returns (GetTargets k) g (Some mt, e) g' ∧ is_Some (mt !! id))).
Proof.
  intros (Hu & Hm & Hk)%reachable_consistent.
  pose proof (unlocked_readable _ Hu) as Hr.
  assert (∀ a b, is_Some (weight_in (nodeSources g) a b) → has_node g a ∧ has_node g b)
    as Hs.
  { intros a b Hab. split; apply Hk; left; [left|right; by exists a].
    unfold weight_in in Hab. destruct (nodeSources g !! a); [done|by destruct Hab]. }
  split; [|split; [|split]].
  - intros ms e g' v H Hv. returned H.
    rewrite lookup_neighbours, lookup_default_inner in Hv.
    destruct (weight_in (nodeSources g') id k) eqn:Ew; simplify_eq/=.
    destruct (Hs id k) as [_ [n' En]]; [by rewrite Ew|]. rewrite En. eauto.
  - intros mt e g' v H Hv. returned H.
    rewrite lookup_neighbours, lookup_default_inner, Hm in Hv.
    destruct (weight_in (nodeSources g') k id) eqn:Ew; simplify_eq/=.
    destruct (Hs k id) as [[n' En] _]; [by rewrite Ew|]. rewrite En. eauto.
  - intros (ms & e & g' & H & Hv). returned H.
    rewrite lookup_neighbours, lookup_default_inner, fmap_is_Some in Hv.
    destruct (Hs id k Hv) as [_ [n' En]].
    eexists _, _, _. unfold returns. rewrite GetTargets_run, En by done.
    split; [by eexists|].
    by rewrite lookup_neighbours, lookup_default_inner, fmap_is_Some, Hm.
  - intros (mt & e & g' & H & Hv). returned H.
    rewrite lookup_neighbours, lookup_default_inner, fmap_is_Some, Hm in Hv.
    destruct (Hs id k Hv) as [[n' En] _].
    eexists _, _, _. unfold returns. rewrite GetSources_run, En by done.
    split; [by eexists|].
    by rewrite lookup_neighbours, lookup_default_inner, fmap_is_Some.
Qed.

(** X11: on an unlocked store holding both nodes, [DeleteEdge] returns
    nil; afterwards neither index has an entry for the pair, [GetWeight]
    fails with the no-edge error, and a second [DeleteEdge] returns nil and
    changes nothing. *)
Theorem DeleteEdge_removes g id pid :
  unlocked g → has_node g id → has_node g pid →
  ∃ g', returns (DeleteEdge id pid) g None g' ∧
    weight_in (nodeSources g') id pid = None ∧
    weight_in (nodeTargets g') pid id = None ∧
    returns (GetWeight id pid) g' (0%float, Some (ErrNoEdge pid id)) g' ∧
    returns (DeleteEdge id pid) g' None g'.
Proof.
  intros Hu [n1 E1] [n2 E2]. pose proof (unlocked_readable _ Hu) as Hr.
  eexists. unfold returns. rewrite DeleteEdge_run, E1, E2 by done.
  split; [by eexists|]. simpl.
  assert (weight_in (del_weight (nodeSources g) id pid) id pid = None) as Hs
    by (by rewrite weight_in_del_weight, decide_True).
  assert (weight_in (del_weight (nodeTargets g) pid id) pid id = None) as Ht
    by (by rewrite weight_in_del_weight, decide_True).
  do 2 (split; [done|]).
  rewrite GetWeight_run, DeleteEdge_run by done. simpl.
  rewrite E1, E2, Hs, Ht.
  rewrite (del_weight_absent _ _ _ Hs), (del_weight_absent _ _ _ Ht).
  split; by eexists.
Qed.

Lemma set_weight_twice (m : gmap ID (gmap ID float)) a b w1 w2 :
  set_weight (set_weight m a b w1) a b w2 = set_weight m a b w2.
Proof.
  unfold set_weight. destruct (m !! a) as [inner|];
    rewrite lookup_insert_eq, insert_insert_eq;
    by rewrite ?insert_insert_eq, ?insert_singleton_eq.
Qed.

(** X12: of two [ReplaceEdge] calls in a row on one pair only the second
    counts: the store after both is the store after the second alone. *)
Theorem ReplaceEdge_last_wins g id pid w1 w2 g1 g2 :
  returns (ReplaceEdge id pid w1) g None g1 →
  returns (ReplaceEdge id pid w2) g1 None g2 →
  returns (ReplaceEdge id pid w2) g None g2.
Proof.
  intros H1 H2.
  assert (unlocked g) as Hu by (destruct H1 as [t E]; by apply Lock_first in E).
  returned H1.
  assert (unlocked (mk_graph (mu g) (nodeList g)
            (set_weight (nodeSources g) id pid w1)
            (set_weight (nodeTargets g) pid id w1))) as Hu1 by done.
  returned H2. rewrite !set_weight_twice.
  unfold returns. rewrite ReplaceEdge_run, E, E0 by done. by eexists.
Qed.

Lemma add_weight_fresh (m : gmap ID (gmap ID float)) a b w :
  weight_in m a b = None → add_weight m a b w = set_weight m a b w.
Proof.
  unfold weight_in, add_weight, set_weight.
  destruct (m !! a) as [inner|]; simpl; [|done]. by intros ->.
Qed.

(** X13: on a pair with no entry in either index, [AddEdge] and
    [ReplaceEdge] are the same call: same result, same store afterwards,
    same events. *)
Theorem AddEdge_fresh_is_ReplaceEdge g id pid wgt :
  weight_in (nodeSources g) id pid = None →
  weight_in (nodeTargets g) pid id = None →
  AddEdge id pid wgt g = ReplaceEdge id pid wgt g.
Proof.
  intros Hs Ht. destruct (decide (unlocked g)) as [Hu|Hl].
  - by rewrite AddEdge_run, ReplaceEdge_run, !add_weight_fresh by done.
  - pose proof (Lock_blocks g Hl) as E.
    unfold AddEdge, ReplaceEdge. by rewrite !(bind_blocks _ _ _ E).
Qed.

(** X14: when [GetWeight id pid] returns a weight [w0] on an unlocked
    store, [AddEdge id pid wgt] returns nil and afterwards [GetWeight id pid]
    returns the float64 sum [w0 + wgt]. *)
Theorem AddEdge_adds_to_weight g id pid w0 wgt g0 :
  unlocked g → returns (GetWeight id pid) g (w0, None) g0 →
  ∃ g', returns (AddEdge id pid wgt) g None g' ∧
    returns (GetWeight id pid) g' ((w0 + wgt)%float, None) g'.
Proof.
  intros Hu H. pose proof (unlocked_readable _ Hu) as Hr. returned H.
  destruct (weight_in (nodeSources g0) id pid) as [w|] eqn:Ew; simplify_eq.
  eexists. unfold returns. rewrite AddEdge_run, E, E0 by done.
  split; [by eexists|]. rewrite GetWeight_run by done. simpl.
  rewrite E, E0, weight_in_add_weight, decide_True, Ew by done. by eexists.
Qed.

End edges.

(** ** Queries *)

Section queries.
Context {N : Type} `{!Node N}.
Implicit Types (g : graph N) (id pid : ID) (nd : N) (wgt : float).

Lemma reads_only_app t1 t2 :
  reads_only (t1 ++ t2) = reads_only t1 && reads_only t2.
Proof. apply forallb_app. Qed.

Lemma foldM_reads {A B} (f : A → B → M N A) g :
  (∀ a x, ∃ a' t, f a x g = Some (a', g, t) ∧ reads_only t = true) →
  ∀ l a, ∃ a' t, foldM f l a g = Some (a', g, t) ∧ reads_only t = true.
Proof.
  intros Hf l. induction l as [|x l IH]; intros a; simpl.
  - by eexists _, _.
  - destruct (Hf a x) as (a1 & t1 & E1 & H1).
    destruct (IH a1) as (a2 & t2 & E2 & H2).
    exists a2, (t1 ++ t2). unfold bind. rewrite E1, E2.
    split; [done|]. by rewrite reads_only_app, H1, H2.
Qed.

(** X15: when no writer holds the lock, each of the seven query methods,
    [JSON] with any range orders included, returns, performs no store and
    leaves the store with its mutex exactly as it found it. *)
Theorem queries_leave_store_untouched g :
  writer (mu g) = false →
  leaves_untouched GetNodeCount g ∧
  leaves_untouched GetNodes g ∧
  (∀ id, leaves_untouched (GetNode id) g) ∧
  (∀ id pid, leaves_untouched (GetWeight id pid) g) ∧
  (∀ id, leaves_untouched (GetSources id) g) ∧
  (∀ pid, leaves_untouched (GetTargets pid) g) ∧
  (∀ order1 order2, leaves_untouched (JSON order1 order2) g).
Proof.
  intros Hr. unfold leaves_untouched.
  rewrite GetNodeCount_run, GetNodes_run by done.
  do 2 (split; [by eexists _, _|]).
  split; [intros id; rewrite GetNode_run by done; by eexists _, _|].
  split; [intros id pid; rewrite GetWeight_run by done; by eexists _, _|].
  split; [intros id; rewrite GetSources_run by done; by eexists _, _|].
  split; [intros id; rewrite GetTargets_run by done; by eexists _, _|].
  intros order1 order2. destruct g as [[wr rd] nl ns nt]; simpl in Hr; subst wr.
  unfold JSON, defer, RLock, RUnlock, get. unfold bind at 1 2 3 4. simpl.
  set (g1 := mk_graph (mk_mu false (S rd)) nl ns nt).
  match goal with
  | |- context [ foldM ?f ?l ?a g1 ] =>
      assert (∀ a' x, ∃ a'' t, f a' x g1 = Some (a'', g1, t) ∧ reads_only t = true)
        as Hf;
      [|destruct (foldM_reads f g1 Hf l a) as (rs & t & Ht & Hq)]
  end.
  - intros rs id. unfold bind. rewrite GetSources_run by done. simpl.
    destruct (nl !! id) eqn:Eid; simpl; [|by eexists _, _].
    match goal with
    | |- context [ foldM ?f ?l ?a g1 ] =>
        assert (∀ a' x, ∃ a'' t, f a' x g1 = Some (a'', g1, t) ∧ reads_only t = true)
          as Hf;
        [|destruct (foldM_reads f g1 Hf l a) as (rs' & t & Ht & Hq)]
    end.
    + intros rs' pid. unfold bind. rewrite GetWeight_run by done. simpl.
      rewrite Eid.
      destruct (nl !! pid), (weight_in ns id pid), (rs' !! ID_String id);
        simpl; by eexists _, _.
    + rewrite Ht. by eexists _, _.
  - rewrite Ht. simpl. eexists _, _. split; [done|].
    simpl. by rewrite !reads_only_app, Hq.
Qed.

End queries.
